(** * hookup: the signaling broker (src/peer/Broker.js)

    A shallow embedding of [Broker]: the relay callbacks that settle the
    broker's [ready] promise, the request dispatcher, and both sides of the
    offer/answer handshake ([initiateConnection] and [_acceptConnection]).

    The program is event driven.  Every callback the source registers is a
    function on an explicit state; the objects the broker creates (the
    SimplePeer instances with the closure variables of the handshake that
    made them) live in a heap indexed by creation order.  Calls the broker
    makes on its collaborators (the socket, the requestified connection, a
    peer's [signal] method, its own [emit]) are recorded in logs.  Listeners
    that the application attaches and the collaborators' own methods are
    taken not to throw. *)

From Stdlib Require Import String Ascii List Bool Lia.
From stdpp Require Import base option list strings gmap.

Local Open Scope string_scope.
Local Open Scope list_scope.

(** ** JavaScript run-time notions *)

(** [new Error(msg)], and a [TypeError] raised by the engine, whose text
    depends on the engine and is left out. *)
Inductive Err :=
| Error (message : string)
| TypeError.

#[global] Instance Err_eq_dec : EqDecision Err.
Proof. solve_decision. Defined.

(** A native promise: the first call of [resolve] or [reject] settles it,
    every later call is a no-op. *)
Module Promise.

Inductive state (A : Type) :=
| Pending
| Fulfilled (v : A)
| Rejected (e : Err).

Arguments Pending {A}.
Arguments Fulfilled {A} v.
Arguments Rejected {A} e.

Definition resolve {A} (v : A) (p : state A) : state A :=
  match p with
  | Pending => Fulfilled v
  | _ => p
  end.

Definition reject {A} (e : Err) (p : state A) : state A :=
  match p with
  | Pending => Rejected e
  | _ => p
  end.

Definition settled {A} (p : state A) : bool :=
  match p with
  | Pending => false
  | _ => true
  end.

End Promise.

Import Promise.

(** ** Data *)

(** A session description; the broker only reads the discriminant [type]. *)
Record SessionDescription := {
  sd_type : string;
  sd_sdp : string
}.

(** A signaling message [{type, from, to, offer}]. *)
Record Message := {
  m_type : string;
  m_from : string;
  m_to : string;
  m_offer : SessionDescription
}.

Record IceServer := { urls : list string }.

Record RTCConfiguration := { iceServers : list IceServer }.

(** The options object handed to [new SimplePeer(...)]. *)
Record SimplePeerOptions := {
  initiator : bool;
  trickle : bool;
  config : option RTCConfiguration
}.

Definition TRICKLE : bool := false.

(** Modelled from the spec: the class [Connection] (src/peer/Connection.js
    is absent); a connection holds the remote peer id, the peer-connection
    capability and the readiness promise.  Both references are heap indices;
    the promise is the [ready] of the closure that created the peer. *)
Record Connection := {
  c_id : string;
  c_peer : nat;
  c_ready : nat
}.

(** ** Peers as event emitters *)

Inductive EventName := EvError | EvSignal | EvConnect.

#[global] Instance EventName_eq_dec : EqDecision EventName.
Proof. solve_decision. Defined.

Inductive PeerEvent :=
| OnError (err : Err)
| OnSignal (data : SessionDescription)
| OnConnect.

Definition event_name (ev : PeerEvent) : EventName :=
  match ev with
  | OnError _ => EvError
  | OnSignal _ => EvSignal
  | OnConnect => EvConnect
  end.

(** The callbacks the source attaches to a peer, named by where they are
    written. *)
Inductive Handler :=
| InitError      (* initiateConnection: peer.once('error', ...) *)
| InitSignal     (* initiateConnection: peer.on('signal', ...) *)
| InitConnect    (* initiateConnection: peer.once('connect', ...) *)
| AccConnect     (* _acceptConnection: peer.once('connect', ...) *)
| AccReadyError  (* _acceptConnection: peer.once('error', ...) in [ready] *)
| AccSignal      (* _acceptConnection: peer.on('signal', ...) *)
| AccReject      (* _acceptConnection: peer.once('error', reject) *)
| AccError.      (* _acceptConnection: peer.on('error', ...) *)

Record Listener := {
  l_event : EventName;
  l_once : bool;
  l_fn : Handler
}.

Definition on (name : EventName) (fn : Handler) (ls : list Listener) : list Listener :=
  ls ++ [{| l_event := name; l_once := false; l_fn := fn |}].

Definition once (name : EventName) (fn : Handler) (ls : list Listener) : list Listener :=
  ls ++ [{| l_event := name; l_once := true; l_fn := fn |}].

(** The value a connection's [ready] resolves with: [resolve()] on the
    initiator side, [resolveReady(peer)] on the responder side. *)
Inductive ReadyValue :=
| Undefined
| ThePeer (peer : nat).

(** Closure variables of [initiateConnection]. *)
Record InitScope := {
  i_from : string;
  i_to : string;
  i_connecting : bool;
  i_ready : Promise.state ReadyValue
}.

(** Closure variables of [_acceptConnection]; [a_result] is the promise the
    function returns. *)
Record AccScope := {
  a_message : Message;
  a_connecting : bool;
  a_done : bool;
  a_ready : Promise.state ReadyValue;
  a_result : Promise.state SessionDescription
}.

Inductive Scope :=
| Init (s : InitScope)
| Acc (s : AccScope).

(** A SimplePeer instance: its options, its listeners in registration
    order, the descriptions fed to it through [peer.signal], and the closure
    its listeners share. *)
Record Peer := {
  p_options : SimplePeerOptions;
  p_listeners : list Listener;
  p_signalled : list SessionDescription;
  p_scope : Scope
}.

Definition set_scope (s : Scope) (p : Peer) : Peer :=
  {| p_options := p_options p; p_listeners := p_listeners p;
     p_signalled := p_signalled p; p_scope := s |}.

Definition set_listeners (ls : list Listener) (p : Peer) : Peer :=
  {| p_options := p_options p; p_listeners := ls;
     p_signalled := p_signalled p; p_scope := p_scope p |}.

(** [peer.signal(data)] *)
Definition signal (data : SessionDescription) (p : Peer) : Peer :=
  {| p_options := p_options p; p_listeners := p_listeners p;
     p_signalled := p_signalled p ++ [data]; p_scope := p_scope p |}.

Definition ready_of (p : Peer) : Promise.state ReadyValue :=
  match p_scope p with
  | Init s => i_ready s
  | Acc s => a_ready s
  end.

(** The [catch] callback of the connect request (and the test every
    initiator-side failure path runs):
    [if (connecting) { connecting = false; reject(err) }] *)
Definition init_fail (err : Err) (s : InitScope) : InitScope :=
  if i_connecting s
  then {| i_from := i_from s; i_to := i_to s; i_connecting := false;
          i_ready := reject err (i_ready s) |}
  else s.

Definition init_connected (s : InitScope) : InitScope :=
  if i_connecting s
  then {| i_from := i_from s; i_to := i_to s; i_connecting := false;
          i_ready := resolve Undefined (i_ready s) |}
  else s.

Definition connect_message (from to : string) (data : SessionDescription) : Message :=
  {| m_type := "connect"; m_from := from; m_to := to; m_offer := data |}.

Definition acc_connected (self : nat) (s : AccScope) : AccScope :=
  {| a_message := a_message s; a_connecting := a_connecting s; a_done := true;
     a_ready := resolve (ThePeer self) (a_ready s); a_result := a_result s |}.

Definition acc_ready_error (err : Err) (s : AccScope) : AccScope :=
  if a_done s then s
  else {| a_message := a_message s; a_connecting := a_connecting s; a_done := a_done s;
          a_ready := reject err (a_ready s); a_result := a_result s |}.

Definition acc_answer (data : SessionDescription) (s : AccScope) : AccScope :=
  if bool_decide (sd_type data = "answer")
  then if a_connecting s
       then {| a_message := a_message s; a_connecting := false; a_done := a_done s;
               a_ready := a_ready s; a_result := resolve data (a_result s) |}
       else s
  else s.

Definition acc_reject (err : Err) (s : AccScope) : AccScope :=
  {| a_message := a_message s; a_connecting := a_connecting s; a_done := a_done s;
     a_ready := a_ready s; a_result := reject err (a_result s) |}.

Definition acc_error (err : Err) (s : AccScope) : AccScope :=
  if a_connecting s
  then {| a_message := a_message s; a_connecting := false; a_done := a_done s;
          a_ready := a_ready s; a_result := reject err (a_result s) |}
  else s.

(** Run one callback on the peer [self] for the event [ev].  The result is
    the peer afterwards and the messages passed to
    [this.connection.request]. *)
Definition call (fn : Handler) (self : nat) (ev : PeerEvent) (p : Peer)
  : Peer * list Message :=
  match fn, ev, p_scope p with
  | InitError, OnError err, Init s => (set_scope (Init (init_fail err s)) p, [])
  | InitSignal, OnSignal data, Init s =>
      if bool_decide (sd_type data = "offer")
      then (p, [connect_message (i_from s) (i_to s) data])
      else (p, [])
  | InitConnect, OnConnect, Init s => (set_scope (Init (init_connected s)) p, [])
  | AccConnect, OnConnect, Acc s => (set_scope (Acc (acc_connected self s)) p, [])
  | AccReadyError, OnError err, Acc s => (set_scope (Acc (acc_ready_error err s)) p, [])
  | AccSignal, OnSignal data, Acc s => (set_scope (Acc (acc_answer data s)) p, [])
  | AccReject, OnError err, Acc s => (set_scope (Acc (acc_reject err s)) p, [])
  | AccError, OnError err, Acc s => (set_scope (Acc (acc_error err s)) p, [])
  | _, _, _ => (p, [])
  end.

Definition call_all (fns : list Handler) (self : nat) (ev : PeerEvent) (p : Peer)
  : Peer * list Message :=
  fold_left (fun acc fn => let r := call fn self ev acc.1 in (r.1, acc.2 ++ r.2))
            fns (p, []).

Definition listening (name : EventName) (ls : list Listener) : list Handler :=
  l_fn <$> filter (fun l => l_event l = name) ls.

Definition keep_after (name : EventName) (ls : list Listener) : list Listener :=
  filter (fun l => ¬ (l_event l = name ∧ l_once l = true)) ls.

(** [peer.emit(name, arg)]: the listeners of the event run in registration
    order; a [once] listener is removed when it is invoked. *)
Definition emit (self : nat) (ev : PeerEvent) (p : Peer) : Peer * list Message :=
  call_all (listening (event_name ev) (p_listeners p)) self ev
           (set_listeners (keep_after (event_name ev) (p_listeners p)) p).

(** ** The broker and the objects it creates *)

(** Calls made on [this.socket]. *)
Inductive SocketCall :=
| SocketClose.

(** Events the broker emits to its observers. *)
Inductive BrokerEvent :=
| EmOpen
| EmClose
| EmError (err : Err)
| EmConnection (c : Connection).

(** Modelled from the spec: the promise returned by
    [this.connection.request(message)] (src/shared/requestify.js is absent);
    a pending transaction settles exactly once.  [r_owner] is the peer of the
    handshake whose [then]/[catch] callbacks are attached to it. *)
Record Request := {
  r_owner : nat;
  r_message : Message;
  r_settled : bool
}.

Definition new_request (owner : nat) (m : Message) : Request :=
  {| r_owner := owner; r_message := m; r_settled := false |}.

Definition settle (r : Request) : Request :=
  {| r_owner := r_owner r; r_message := r_message r; r_settled := true |}.

(** What a function call yields. *)
Inductive Value :=
| VPromise (peer : nat)        (* the promise [_acceptConnection] returns *)
| VString (s : string)
| VMessage (m : Message).

Inductive Outcome :=
| Return (v : Value)
| Throw (e : Err).

(** The broker instance together with the objects created through it.
    [connecting] is the closure variable of the constructor's [ready]
    promise; [connection] lists the requests issued on the requestified
    socket; [returned] lists what the request callback handed back to it. *)
Record Broker := {
  url : string;
  socket : list SocketCall;
  connection : list Request;
  emitted : list BrokerEvent;
  connecting : bool;
  ready : Promise.state unit;
  peers : list Peer;
  returned : list Outcome
}.

Definition new_Broker (u : string) : Broker :=
  {| url := u; socket := []; connection := []; emitted := [];
     connecting := true; ready := Pending; peers := []; returned := [] |}.

Definition set_peers (ps : list Peer) (b : Broker) : Broker :=
  {| url := url b; socket := socket b; connection := connection b;
     emitted := emitted b; connecting := connecting b; ready := ready b;
     peers := ps; returned := returned b |}.

Definition set_connection (rs : list Request) (b : Broker) : Broker :=
  {| url := url b; socket := socket b; connection := rs;
     emitted := emitted b; connecting := connecting b; ready := ready b;
     peers := peers b; returned := returned b |}.

(** [this.emit(event)] *)
Definition broker_emit (ev : BrokerEvent) (b : Broker) : Broker :=
  {| url := url b; socket := socket b; connection := connection b;
     emitted := emitted b ++ [ev]; connecting := connecting b; ready := ready b;
     peers := peers b; returned := returned b |}.

Definition set_ready (c : bool) (r : Promise.state unit) (b : Broker) : Broker :=
  {| url := url b; socket := socket b; connection := connection b;
     emitted := emitted b; connecting := c; ready := r;
     peers := peers b; returned := returned b |}.

Definition push_returned (o : Outcome) (b : Broker) : Broker :=
  {| url := url b; socket := socket b; connection := connection b;
     emitted := emitted b; connecting := connecting b; ready := ready b;
     peers := peers b; returned := returned b ++ [o] |}.

(** *** The relay callbacks (constructor) *)

Definition onopen (b : Broker) : Broker :=
  let b1 := broker_emit EmOpen b in
  if connecting b1
  then set_ready false (resolve tt (ready b1)) b1
  else b1.

Definition onclose (b : Broker) : Broker :=
  broker_emit EmClose b.

Definition onerror (err : Err) (b : Broker) : Broker :=
  if connecting b
  then set_ready false (reject err (ready b)) b
  else broker_emit (EmError err) b.

(** *** initiateConnection *)

Definition stun_servers : list IceServer :=
  [ {| urls := [ "stun:stun.l.google.com:19302";
                 "stun:stun1.l.google.com:19302";
                 "stun:stun2.l.google.com:19302";
                 "stun:stun3.l.google.com:19302";
                 "stun:stun4.l.google.com:19302" ] |} ].

Definition initiator_options : SimplePeerOptions :=
  {| initiator := true; trickle := TRICKLE;
     config := Some {| iceServers := stun_servers |} |}.

Definition initiator_peer (from to : string) : Peer :=
  {| p_options := initiator_options;
     p_listeners := once EvConnect InitConnect
                      (on EvSignal InitSignal
                         (once EvError InitError []));
     p_signalled := [];
     p_scope := Init {| i_from := from; i_to := to;
                        i_connecting := true; i_ready := Pending |} |}.

Definition initiateConnection (from to : string) (b : Broker) : Connection * Broker :=
  let peer := length (peers b) in
  ({| c_id := to; c_peer := peer; c_ready := peer |},
   set_peers (peers b ++ [initiator_peer from to]) b).

(** *** _acceptConnection *)

Definition responder_options : SimplePeerOptions :=
  {| initiator := false; trickle := TRICKLE; config := None |}.

Definition responder_peer (message : Message) : Peer :=
  signal (m_offer message)
    {| p_options := responder_options;
       p_listeners := on EvError AccError
                        (once EvError AccReject
                           (on EvSignal AccSignal
                              (once EvError AccReadyError
                                 (once EvConnect AccConnect []))));
       p_signalled := [];
       p_scope := Acc {| a_message := message; a_connecting := true; a_done := false;
                         a_ready := Pending; a_result := Pending |} |}.

(** Returns the heap index of the peer whose [a_result] is the promise the
    source returns. *)
Definition _acceptConnection (message : Message) (b : Broker) : nat * Broker :=
  let peer := length (peers b) in
  (peer,
   broker_emit (EmConnection {| c_id := m_from message; c_peer := peer; c_ready := peer |})
     (set_peers (peers b ++ [responder_peer message]) b)).

(** *** close *)

Definition close (b : Broker) : Broker :=
  {| url := url b; socket := socket b ++ [SocketClose]; connection := connection b;
     emitted := emitted b; connecting := connecting b; ready := ready b;
     peers := peers b; returned := returned b |}.

(** *** The request dispatcher (constructor) *)

(** What a property of [this.functions] can hold: the registered handler, or
    a member inherited from [Object.prototype]. *)
Inductive Callee :=
| AcceptConnection
| Inherited (key : string).

(** [this.functions = { connect: ... }], its own properties. *)
Definition functions : gmap string Callee :=
  {[ "connect" := AcceptConnection ]}.

(** The property names of [Object.prototype], the prototype of every object
    literal. *)
Definition Object_prototype : list string :=
  [ "constructor"; "toString"; "toLocaleString"; "valueOf";
    "hasOwnProperty"; "isPrototypeOf"; "propertyIsEnumerable"; "__proto__";
    "__defineGetter__"; "__defineSetter__"; "__lookupGetter__"; "__lookupSetter__" ].

(** [obj[key]]: own properties first, then the prototype; [None] is
    [undefined].  Every inherited member is an object, hence truthy. *)
Definition get (obj : gmap string Callee) (key : string) : option Callee :=
  match obj !! key with
  | Some fn => Some fn
  | None => if bool_decide (key ∈ Object_prototype) then Some (Inherited key) else None
  end.

Definition dquote : string := String (ascii_of_nat 34) EmptyString.

(** [`Unknown message type "${message.type}"`] *)
Definition unknown_message_type (type : string) : Err :=
  Error (String.append "Unknown message type "
           (String.append dquote (String.append type dquote))).

(** [fn(message)] for an inherited member, in strict code (the receiver is
    [undefined]): [Object.prototype.toString] answers for [undefined],
    [Object] returns its object argument; [__proto__] holds an object that is
    not callable and the remaining methods reject the [undefined] receiver,
    a [TypeError] in both cases. *)
Definition call_inherited (key : string) (message : Message) : Outcome :=
  if bool_decide (key = "toString") then Return (VString "[object Undefined]")
  else if bool_decide (key = "constructor") then Return (VMessage message)
  else Throw TypeError.

(** The callback of [this.connection.on('request', ...)]. *)
Definition on_request (message : Message) (b : Broker) : Outcome * Broker :=
  match get functions (m_type message) with
  | None => (Throw (unknown_message_type (m_type message)), b)
  | Some AcceptConnection =>
      let r := _acceptConnection message b in (Return (VPromise r.1), r.2)
  | Some (Inherited key) => (call_inherited key message, b)
  end.

(** *** Settlement of a connect request (initiateConnection) *)

(** [.then(function (answer) { peer.signal(answer) })] *)
Definition request_then (answer : SessionDescription) (p : Peer) : Peer :=
  signal answer p.

(** [.catch(function (err) { if (connecting) { ... reject(err) } })] *)
Definition request_catch (err : Err) (p : Peer) : Peer :=
  match p_scope p with
  | Init s => set_scope (Init (init_fail err s)) p
  | Acc _ => p
  end.

(** ** The event loop *)

Inductive Input :=
| SocketOpen                                        (* socket.onopen() *)
| SocketClosed                                      (* socket.onclose() *)
| SocketError (err : Err)                           (* socket.onerror(err) *)
| InboundRequest (message : Message)                (* 'request' callback *)
| PeerEmit (peer : nat) (ev : PeerEvent)            (* a peer emits an event *)
| RequestResolved (k : nat) (answer : SessionDescription)
| RequestRejected (k : nat) (err : Err)
| CallInitiateConnection (from to : string)
| CallClose.

Definition peer_emit (i : nat) (ev : PeerEvent) (b : Broker) : Broker :=
  match peers b !! i with
  | Some p =>
      let r := emit i ev p in
      set_connection (connection b ++ (new_request i <$> r.2))
        (set_peers (<[i := r.1]> (peers b)) b)
  | None => b
  end.

Definition request_settled (k : nat) (f : Peer -> Peer) (b : Broker) : Broker :=
  match connection b !! k with
  | Some r =>
      if r_settled r then b
      else set_peers (alter f (r_owner r) (peers b))
             (set_connection (<[k := settle r]> (connection b)) b)
  | None => b
  end.

Definition step (b : Broker) (i : Input) : Broker :=
  match i with
  | SocketOpen => onopen b
  | SocketClosed => onclose b
  | SocketError err => onerror err b
  | InboundRequest message =>
      let r := on_request message b in push_returned r.1 r.2
  | PeerEmit peer ev => peer_emit peer ev b
  | RequestResolved k answer => request_settled k (request_then answer) b
  | RequestRejected k err => request_settled k (request_catch err) b
  | CallInitiateConnection from to => (initiateConnection from to b).2
  | CallClose => close b
  end.

Definition run (tr : list Input) (b : Broker) : Broker :=
  fold_left step tr b.

(** The readiness promise of a connection. *)
Definition connection_ready (c : Connection) (b : Broker) : option (Promise.state ReadyValue) :=
  ready_of <$> peers b !! c_ready c.

(** The promise returned by [_acceptConnection] for peer [i]. *)
Definition accept_result (i : nat) (b : Broker) : option (Promise.state SessionDescription) :=
  match peers b !! i with
  | Some p => match p_scope p with
              | Acc s => Some (a_result s)
              | Init _ => None
              end
  | None => None
  end.

(** ** Vocabulary of the statements *)

(** Sample descriptions for the scenarios. *)
Definition O1 : SessionDescription := {| sd_type := "offer"; sd_sdp := "o1" |}.

Definition A1 : SessionDescription := {| sd_type := "answer"; sd_sdp := "a1" |}.

Definition relay : Broker := new_Broker "ws://relay".

(** The promise [_acceptConnection] returned, read off a peer. *)
Definition result_of (p : Peer) : option (Promise.state SessionDescription) :=
  match p_scope p with
  | Acc s => Some (a_result s)
  | Init _ => None
  end.

(** The effect of an input on the peer at heap index [i]. *)
Definition local (i : nat) (b : Broker) (inp : Input) (p : Peer) : Peer :=
  match inp with
  | PeerEmit j ev => if decide (j = i) then (emit i ev p).1 else p
  | RequestResolved k answer =>
      match connection b !! k with
      | Some r => if r_settled r then p
                  else if decide (r_owner r = i) then request_then answer p else p
      | None => p
      end
  | RequestRejected k err =>
      match connection b !! k with
      | Some r => if r_settled r then p
                  else if decide (r_owner r = i) then request_catch err p else p
      | None => p
      end
  | _ => p
  end.

(** What the relay's events make of the broker's readiness: the first open
    or error decides. *)
Fixpoint relay_outcome (tr : list Input) : Promise.state unit :=
  match tr with
  | [] => Pending
  | SocketOpen :: _ => Fulfilled tt
  | SocketError err :: _ => Rejected err
  | _ :: tr' => relay_outcome tr'
  end.

Definition is_open_or_error (inp : Input) : bool :=
  match inp with
  | SocketOpen | SocketError _ => true
  | _ => false
  end.

(** [connecting] is true exactly while [ready] is pending. *)
Definition ready_inv (b : Broker) : Prop :=
  connecting b = negb (settled (ready b)).

(** The connection [_acceptConnection] hands to the 'connection' event. *)
Definition accepted_connection (message : Message) (b : Broker) : Connection :=
  {| c_id := m_from message; c_peer := length (peers b); c_ready := length (peers b) |}.

(** The listeners of an initiator peer: the two [once] listeners are gone
    after their event was emitted. *)
Definition init_listeners (e c : bool) : list Listener :=
  (if e then once EvError InitError [] else [])
  ++ on EvSignal InitSignal []
  ++ (if c then once EvConnect InitConnect [] else []).

(** An initiator peer for which nothing is decided yet. *)
Definition undecided (from to : string) (p : Peer) : Prop :=
  p_listeners p = init_listeners true true
  /\ p_scope p = Init {| i_from := from; i_to := to;
                         i_connecting := true; i_ready := Pending |}.

(** The events that can decide the readiness of the connection of peer [i]:
    the peer reports an error, one of its pending connect requests fails, or
    the peer reports that it is connected. *)
Definition decides (i : nat) (b : Broker) (inp : Input)
  : option (Promise.state ReadyValue) :=
  match inp with
  | PeerEmit j (OnError err) => if decide (j = i) then Some (Rejected err) else None
  | PeerEmit j OnConnect => if decide (j = i) then Some (Fulfilled Undefined) else None
  | RequestRejected k err =>
      match connection b !! k with
      | Some r => if r_settled r then None
                  else if decide (r_owner r = i) then Some (Rejected err) else None
      | None => None
      end
  | _ => None
  end.

(** The outcome of the first deciding event of a run. *)
Fixpoint first_outcome (i : nat) (tr : list Input) (b : Broker)
  : Promise.state ReadyValue :=
  match tr with
  | [] => Pending
  | inp :: tr' =>
      match decides i b inp with
      | Some v => v
      | None => first_outcome i tr' (step b inp)
      end
  end.

(** A peer created by [initiateConnection from to], at any later time. *)
Definition initiator_of (from to : string) (p : Peer) : Prop :=
  (exists e c, p_listeners p = init_listeners e c)
  /\ (exists cn rd, p_scope p = Init {| i_from := from; i_to := to;
                                        i_connecting := cn; i_ready := rd |}).

(** The transaction [k] still awaits its response. *)
Definition is_pending (k : nat) (b : Broker) : bool :=
  match connection b !! k with
  | Some r => negb (r_settled r)
  | None => false
  end.

(** The listeners of a responder peer; the [once] listeners are gone after
    their event was emitted. *)
Definition acc_listeners (c e : bool) : list Listener :=
  (if c then once EvConnect AccConnect [] else [])
  ++ (if e then once EvError AccReadyError [] else [])
  ++ on EvSignal AccSignal []
  ++ (if e then once EvError AccReject [] else [])
  ++ on EvError AccError [].

(** A responder peer that has produced neither an answer nor an error. *)
Definition unanswered (message : Message) (p : Peer) : Prop :=
  (exists c, p_listeners p = acc_listeners c true)
  /\ (exists dn rd, p_scope p = Acc {| a_message := message; a_connecting := true;
                                       a_done := dn; a_ready := rd;
                                       a_result := Pending |}).

(** The events that settle the promise [_acceptConnection] returned for
    peer [i]: a signal of type "answer", or an error. *)
Definition answers (i : nat) (inp : Input) : option (Promise.state SessionDescription) :=
  match inp with
  | PeerEmit j (OnSignal data) =>
      if decide (j = i)
      then if bool_decide (sd_type data = "answer") then Some (Fulfilled data) else None
      else None
  | PeerEmit j (OnError err) => if decide (j = i) then Some (Rejected err) else None
  | _ => None
  end.

Fixpoint first_answer (i : nat) (tr : list Input) : Promise.state SessionDescription :=
  match tr with
  | [] => Pending
  | inp :: tr' =>
      match answers i inp with
      | Some v => v
      | None => first_answer i tr'
      end
  end.

(** ** Vocabulary of the further properties *)

(** The errors among the emitted events. *)
Definition emitted_errors (l : list BrokerEvent) : list Err :=
  omap (fun ev => match ev with EmError err => Some err | _ => None end) l.

(** All errors the relay reports in a run. *)
Fixpoint relay_errors (tr : list Input) : list Err :=
  match tr with
  | [] => []
  | SocketError err :: tr' => err :: relay_errors tr'
  | _ :: tr' => relay_errors tr'
  end.

(** The errors the relay reports after its first open or error event. *)
Fixpoint later_errors (tr : list Input) : list Err :=
  match tr with
  | [] => []
  | SocketOpen :: tr' => relay_errors tr'
  | SocketError _ :: tr' => relay_errors tr'
  | _ :: tr' => later_errors tr'
  end.

Definition is_open (inp : Input) : bool :=
  match inp with SocketOpen => true | _ => false end.

Definition is_closed (inp : Input) : bool :=
  match inp with SocketClosed => true | _ => false end.

Definition is_EmOpen (ev : BrokerEvent) : bool :=
  match ev with EmOpen => true | _ => false end.

Definition is_EmClose (ev : BrokerEvent) : bool :=
  match ev with EmClose => true | _ => false end.

Definition is_EmConnection (ev : BrokerEvent) : bool :=
  match ev with EmConnection _ => true | _ => false end.

(** An inbound request that asks for a connection. *)
Definition is_inbound_connect (inp : Input) : bool :=
  match inp with
  | InboundRequest message => bool_decide (m_type message = "connect")
  | _ => false
  end.

(** An input that starts a handshake, on either side. *)
Definition starts_handshake (inp : Input) : bool :=
  match inp with
  | CallInitiateConnection _ _ => true
  | _ => is_inbound_connect inp
  end.

Definition count {A} (f : A -> bool) (l : list A) : nat :=
  length (List.filter f l).

(** What one input appends to the emitted events. *)
Definition step_events (b : Broker) (inp : Input) : list BrokerEvent :=
  match inp with
  | SocketOpen => [EmOpen]
  | SocketClosed => [EmClose]
  | SocketError err => if connecting b then [] else [EmError err]
  | InboundRequest message =>
      if bool_decide (m_type message = "connect")
      then [EmConnection (accepted_connection message b)] else []
  | _ => []
  end.

(** The side of the handshake a peer belongs to, with the arguments of the
    call that created it: [from] and [to] of [initiateConnection], or the
    [message] of [_acceptConnection].  These closure variables are never
    assigned. *)
Definition handshake_of (p : Peer) : (string * string) + Message :=
  match p_scope p with
  | Init s => inl (i_from s, i_to s)
  | Acc s => inr (a_message s)
  end.

(** A peer is as one of the two functions made it, up to the events it has
    seen: an initiator peer has the initiator's options and listeners; a
    responder peer has the responder's, and has been fed the inbound offer
    and nothing else. *)
Definition peer_ok (p : Peer) : Prop :=
  match handshake_of p with
  | inl _ => p_options p = initiator_options
             /\ exists e c, p_listeners p = init_listeners e c
  | inr message => p_options p = responder_options
                   /\ p_signalled p = [m_offer message]
                   /\ exists c e, p_listeners p = acc_listeners c e
  end.

(** A request on the channel is a connect request carrying an offer, issued
    for an initiator peer with the peer's [from] and [to]. *)
Definition request_ok (b : Broker) (r : Request) : Prop :=
  m_type (r_message r) = "connect"
  /\ sd_type (m_offer (r_message r)) = "offer"
  /\ exists p, peers b !! r_owner r = Some p
               /\ handshake_of p = inl (m_from (r_message r), m_to (r_message r)).

(** An emitted connection refers to a responder peer and names the sender
    of the message that peer was created for. *)
Definition connection_ok (b : Broker) (c : Connection) : Prop :=
  c_ready c = c_peer c
  /\ exists p message, peers b !! c_peer c = Some p
                       /\ handshake_of p = inr message
                       /\ c_id c = m_from message.

Definition well_formed (b : Broker) : Prop :=
  (forall k r, connection b !! k = Some r -> request_ok b r)
  /\ (forall i p, peers b !! i = Some p -> peer_ok p)
  /\ (forall c, EmConnection c ∈ emitted b -> connection_ok b c).

(** A responder peer whose readiness is not decided yet. *)
Definition unready (message : Message) (p : Peer) : Prop :=
  p_listeners p = acc_listeners true true
  /\ (exists cn res, p_scope p = Acc {| a_message := message; a_connecting := cn;
                                        a_done := false; a_ready := Pending;
                                        a_result := res |}).

(** The events that decide the readiness of the connection emitted for the
    responder peer [i]: the peer reports connected, or reports an error. *)
Definition readies (i : nat) (inp : Input) : option (Promise.state ReadyValue) :=
  match inp with
  | PeerEmit j OnConnect => if decide (j = i) then Some (Fulfilled (ThePeer i)) else None
  | PeerEmit j (OnError err) => if decide (j = i) then Some (Rejected err) else None
  | _ => None
  end.

Fixpoint first_ready (i : nat) (tr : list Input) : Promise.state ReadyValue :=
  match tr with
  | [] => Pending
  | inp :: tr' =>
      match readies i inp with
      | Some v => v
      | None => first_ready i tr'
      end
  end.

(** The input is an event of peer [i], or the settlement of a pending
    request of peer [i]. *)
Definition concerns (i : nat) (b : Broker) (inp : Input) : bool :=
  match inp with
  | PeerEmit j _ => bool_decide (j = i)
  | RequestResolved k _ | RequestRejected k _ =>
      match connection b !! k with
      | Some r => negb (r_settled r) && bool_decide (r_owner r = i)
      | None => false
      end
  | _ => false
  end.

(** No input of the run concerns peer [i]. *)
Fixpoint foreign (i : nat) (tr : list Input) (b : Broker) : bool :=
  match tr with
  | [] => true
  | inp :: tr' => negb (concerns i b inp) && foreign i tr' (step b inp)
  end.

(** The signal is not the one the handshake of the peer waits for. *)
Definition unexpected (data : SessionDescription) (p : Peer) : Prop :=
  match p_scope p with
  | Init _ => sd_type data <> "offer"
  | Acc _ => sd_type data <> "answer"
  end.

(** The guard flags of a handshake agree with its promises: [connecting]
    is true exactly while the promise it guards is pending, and the
    responder's [done] is set only once its readiness is settled. *)
Definition flags_agree (p : Peer) : Prop :=
  match p_scope p with
  | Init s => i_connecting s = negb (settled (i_ready s))
  | Acc s => a_connecting s = negb (settled (a_result s))
             /\ (a_done s = true -> settled (a_ready s) = true)
  end.

(** ** Promises settle once *)

Section PromiseFacts.
Context {A : Type}.
Implicit Types (p : Promise.state A) (v : A) (e : Err).

Lemma resolve_settled v p : settled p = true -> resolve v p = p.
Proof. by destruct p. Qed.

Lemma reject_settled e p : settled p = true -> reject e p = p.
Proof. by destruct p. Qed.

Lemma settled_resolve v p : settled (resolve v p) = true.
Proof. by destruct p. Qed.

Lemma settled_reject e p : settled (reject e p) = true.
Proof. by destruct p. Qed.

Lemma not_settled p : settled p = false -> p = Pending.
Proof. by destruct p. Qed.
End PromiseFacts.

(** ** What one input does to one peer *)

Lemma request_settled_lookup k f b i p :
  peers b !! i = Some p ->
  peers (request_settled k f b) !! i =
    Some match connection b !! k with
         | Some r => if r_settled r then p
                     else if decide (r_owner r = i) then f p else p
         | None => p
         end.
Proof.
  intros Hp. unfold request_settled.
  destruct (connection b !! k) as [r|]; [|done].
  destruct (r_settled r); [done|]. cbn.
  destruct (decide (r_owner r = i)) as [->|Hne].
  - by rewrite list_lookup_alter_eq, Hp.
  - by rewrite list_lookup_alter_ne.
Qed.

Lemma peer_emit_lookup j ev b i p :
  peers b !! i = Some p ->
  peers (peer_emit j ev b) !! i = Some (if decide (j = i) then (emit i ev p).1 else p).
Proof.
  intros Hp. unfold peer_emit.
  destruct (decide (j = i)) as [->|Hne].
  - rewrite Hp. cbn. apply list_lookup_insert_eq. by eapply lookup_lt_Some.
  - destruct (peers b !! j); cbn; [|done]. by rewrite list_lookup_insert_ne.
Qed.

(** Peers are never removed, and an input changes a peer only through
    [local]. *)
Lemma step_lookup b inp i p :
  peers b !! i = Some p ->
  peers (step b inp) !! i = Some (local i b inp p).
Proof.
  intros Hp. destruct inp; cbn; try done.
  - unfold onopen. cbn. by destruct (connecting b).
  - unfold onerror. by destruct (connecting b).
  - unfold on_request. destruct (get functions (m_type message)) as [[|key]|]; cbn; try done.
    by apply lookup_app_l_Some.
  - by apply peer_emit_lookup.
  - by apply request_settled_lookup.
  - by apply request_settled_lookup.
  - by apply lookup_app_l_Some.
Qed.

(** Requests are never removed; only their [settled] flag changes. *)
Lemma step_request b inp k r :
  connection b !! k = Some r ->
  exists r', connection (step b inp) !! k = Some r'
             /\ r_owner r' = r_owner r /\ r_message r' = r_message r.
Proof.
  intros Hr. destruct inp; cbn; eauto.
  - unfold onopen. cbn. destruct (connecting b); eauto.
  - unfold onerror. destruct (connecting b); eauto.
  - unfold on_request. destruct (get functions (m_type message)) as [[|key]|]; cbn; eauto.
  - unfold peer_emit. destruct (peers b !! peer); cbn; eauto.
    exists r. split; [by apply lookup_app_l_Some | done].
  - unfold request_settled. destruct (connection b !! k0) as [r0|] eqn:Hk0; eauto.
    destruct (r_settled r0); eauto. cbn.
    destruct (decide (k0 = k)) as [->|Hne].
    + exists (settle r0). rewrite list_lookup_insert_eq by (by eapply lookup_lt_Some).
      by simplify_eq.
    + exists r. by rewrite list_lookup_insert_ne.
  - unfold request_settled. destruct (connection b !! k0) as [r0|] eqn:Hk0; eauto.
    destruct (r_settled r0); eauto. cbn.
    destruct (decide (k0 = k)) as [->|Hne].
    + exists (settle r0). rewrite list_lookup_insert_eq by (by eapply lookup_lt_Some).
      by simplify_eq.
    + exists r. by rewrite list_lookup_insert_ne.
Qed.

Lemma run_app tr1 tr2 b : run (tr1 ++ tr2) b = run tr2 (run tr1 b).
Proof. apply fold_left_app. Qed.

Lemma run_cons inp tr b : run (inp :: tr) b = run tr (step b inp).
Proof. done. Qed.

(** ** Settled promises of a peer stay as they are *)

Lemma call_all_ind (P : Peer -> Prop) fns self ev p :
  P p ->
  (forall fn q, P q -> P (call fn self ev q).1) ->
  P (call_all fns self ev p).1.
Proof.
  intros Hp Hcall. unfold call_all.
  generalize (@nil Message). revert p Hp.
  induction fns as [|fn fns IH]; intros p Hp out; cbn; [done|].
  apply IH. by apply Hcall.
Qed.

Ltac split_ifs :=
  repeat match goal with
         | |- context [if ?c then _ else _] => destruct c
         end.

Ltac unfold_handlers :=
  unfold init_fail, init_connected, acc_connected, acc_ready_error,
    acc_answer, acc_reject, acc_error in *.

Lemma call_ready fn self ev p :
  settled (ready_of p) = true -> ready_of (call fn self ev p).1 = ready_of p.
Proof.
  destruct p as [o ls sg [s|s]]; unfold ready_of, call; cbn; intros Hs;
    destruct fn, ev; cbn; try done; unfold_handlers;
    split_ifs; cbn; try done;
    by rewrite ?resolve_settled, ?reject_settled.
Qed.

Lemma call_result fn self ev p v :
  result_of p = Some v -> settled v = true ->
  result_of (call fn self ev p).1 = Some v.
Proof.
  destruct p as [o ls sg [s|s]]; unfold result_of, call; cbn; intros Hr Hs;
    simplify_eq; destruct fn, ev; cbn; try done; unfold_handlers;
    repeat case_match; cbn; try done;
    by rewrite ?resolve_settled, ?reject_settled.
Qed.

Lemma emit_ready i ev p :
  settled (ready_of p) = true -> ready_of (emit i ev p).1 = ready_of p.
Proof.
  intros Hs. unfold emit.
  apply (call_all_ind (fun q => ready_of q = ready_of p)); [done|].
  intros fn q Hq. rewrite <- Hq. apply call_ready. by rewrite Hq.
Qed.

Lemma emit_result i ev p v :
  result_of p = Some v -> settled v = true -> result_of (emit i ev p).1 = Some v.
Proof.
  intros Hr Hs. unfold emit.
  apply (call_all_ind (fun q => result_of q = Some v)); [done|].
  intros fn q Hq. by apply call_result.
Qed.

Lemma request_catch_ready err p :
  settled (ready_of p) = true -> ready_of (request_catch err p) = ready_of p.
Proof.
  destruct p as [o ls sg [s|s]]; unfold ready_of, request_catch; cbn; [|done].
  intros Hs. unfold init_fail. destruct (i_connecting s); cbn; [|done].
  by apply reject_settled.
Qed.

Lemma local_ready i b inp p :
  settled (ready_of p) = true -> ready_of (local i b inp p) = ready_of p.
Proof.
  intros Hs. destruct inp; cbn; try done.
  - case_decide; [by apply emit_ready | done].
  - repeat case_match; done.
  - repeat case_match; try done. by apply request_catch_ready.
Qed.

Lemma local_result i b inp p v :
  result_of p = Some v -> settled v = true -> result_of (local i b inp p) = Some v.
Proof.
  intros Hr Hs. destruct inp; cbn; try done.
  - case_decide; [by apply emit_result | done].
  - repeat case_match; done.
  - repeat case_match; try done.
    destruct p as [o ls sg [s|s]]; unfold result_of, request_catch in *; cbn in *; done.
Qed.

Lemma run_ready tr b i p :
  peers b !! i = Some p -> settled (ready_of p) = true ->
  ready_of <$> peers (run tr b) !! i = Some (ready_of p).
Proof.
  revert b p. induction tr as [|inp tr IH]; intros b p Hp Hs; cbn.
  - by rewrite Hp.
  - pose proof (step_lookup b inp i p Hp) as Hstep.
    pose proof (local_ready i b inp p Hs) as Hl.
    rewrite <- Hl. apply IH; [done|]. by rewrite Hl.
Qed.

Lemma run_result tr b i p v :
  peers b !! i = Some p -> result_of p = Some v -> settled v = true ->
  accept_result i (run tr b) = Some v.
Proof.
  revert b p. induction tr as [|inp tr IH]; intros b p Hp Hr Hs; cbn.
  - unfold accept_result. rewrite Hp. exact Hr.
  - eapply IH; [by apply step_lookup | by apply local_result | done].
Qed.

(** ** The broker's own [ready] promise *)

Ltac unfold_step :=
  unfold onopen, onclose, onerror, on_request, _acceptConnection,
    initiateConnection, peer_emit, request_settled, close, push_returned,
    broker_emit, set_ready, set_peers, set_connection in *.

Lemma step_other_ready b inp :
  is_open_or_error inp = false ->
  ready (step b inp) = ready b /\ connecting (step b inp) = connecting b.
Proof.
  intros Hq. destruct inp; try done; cbn; unfold_step; cbn;
    repeat case_match; done.
Qed.

Lemma step_ready_inv b inp : ready_inv b -> ready_inv (step b inp).
Proof.
  unfold ready_inv. intros Hinv.
  destruct (is_open_or_error inp) eqn:Hq.
  - destruct inp; try done; cbn; unfold_step; cbn;
      destruct (connecting b); cbn; try done.
    + by rewrite settled_resolve.
    + by rewrite settled_reject.
  - destruct (step_other_ready b inp Hq) as [-> ->]. done.
Qed.

Lemma run_ready_inv tr b : ready_inv b -> ready_inv (run tr b).
Proof.
  revert b. induction tr as [|inp tr IH]; intros b Hinv; [done|]; rewrite run_cons.
  by apply IH, step_ready_inv.
Qed.

Lemma new_Broker_ready_inv u : ready_inv (new_Broker u).
Proof. done. Qed.

Lemma step_settled_ready b inp :
  settled (ready b) = true -> ready (step b inp) = ready b.
Proof.
  intros Hs. destruct (is_open_or_error inp) eqn:Hq.
  - destruct inp; try done; cbn; unfold_step; cbn;
      destruct (connecting b); cbn; try done.
    + by apply resolve_settled.
    + by apply reject_settled.
  - by destruct (step_other_ready b inp Hq).
Qed.

Lemma run_settled_ready tr b :
  settled (ready b) = true -> ready (run tr b) = ready b.
Proof.
  revert b. induction tr as [|inp tr IH]; intros b Hs; [done|]; rewrite run_cons.
  rewrite IH; rewrite step_settled_ready; done.
Qed.

Lemma run_relay_outcome tr b :
  connecting b = true -> ready b = Pending ->
  ready (run tr b) = relay_outcome tr.
Proof.
  revert b. induction tr as [|inp tr IH]; intros b Hc Hr; [done|]; rewrite run_cons.
  destruct (is_open_or_error inp) eqn:Hq.
  - destruct inp; try done; cbn.
    + rewrite run_settled_ready; unfold onopen; cbn; rewrite Hc, Hr; done.
    + rewrite run_settled_ready; unfold onerror; cbn; rewrite Hc, Hr; done.
  - destruct (step_other_ready b inp Hq) as [Hr' Hc'].
    rewrite IH by congruence. by destruct inp.
Qed.

Lemma run_quiet_pending tr b :
  forallb (fun inp => negb (is_open_or_error inp)) tr = true ->
  ready (run tr b) = ready b /\ connecting (run tr b) = connecting b.
Proof.
  revert b. induction tr as [|inp tr IH]; intros b Hq; [done|]; rewrite run_cons; cbn in Hq.
  apply andb_prop in Hq as [Hq1 Hq2]. apply negb_true_iff in Hq1.
  destruct (IH (step b inp) Hq2) as [-> ->]. by apply step_other_ready.
Qed.

(** C2. The broker's readiness is decided by the first open or error event
    of the relay: the first open resolves it, the first error rejects it with
    that error.  Once it is settled, an open event leaves it as it is and
    only emits 'open', and an error event leaves it as it is and only emits
    'error' with the error. *)
Theorem broker_ready_settles_once (u : string) (tr : list Input) (err : Err) :
  let b := run tr (new_Broker u) in
  ready b = relay_outcome tr
  /\ (settled (ready b) = true ->
      step b SocketOpen = broker_emit EmOpen b
      /\ ready (step b SocketOpen) = ready b
      /\ step b (SocketError err) = broker_emit (EmError err) b
      /\ ready (step b (SocketError err)) = ready b).
Proof.
  intros b. split; [by apply run_relay_outcome|].
  intros Hs.
  assert (connecting b = false) as Hc.
  { pose proof (run_ready_inv tr _ (new_Broker_ready_inv u)) as Hinv.
    unfold ready_inv in Hinv. fold b in Hinv. by rewrite Hinv, Hs. }
  cbn. unfold onopen, onerror. cbn. rewrite Hc. done.
Qed.

Lemma broker_ready_settles_once_witness :
  let b := run [SocketClosed; SocketError (Error "refused"); SocketOpen] (new_Broker "ws://relay") in
  ready b = Rejected (Error "refused")
  /\ step b SocketOpen = broker_emit EmOpen b
  /\ ready (step b (SocketError (Error "again"))) = Rejected (Error "refused").
Proof.
  intros b.
  destruct (broker_ready_settles_once "ws://relay"
              [SocketClosed; SocketError (Error "refused"); SocketOpen]
              (Error "again")) as [H1 H2].
  destruct H2 as (H3 & _ & _ & H4); [reflexivity|].
  split; [exact H1|]. split; [exact H3|]. exact H4.
Defined.

(** C10, as amended.  In every reachable state the close callback of the
    relay emits 'close' and neither resolves nor rejects the broker's
    readiness, and a call of [close] does not either; while the broker is
    still connecting, readiness stays pending for as long as neither an open
    nor an error event arrives, however often the socket closes.  (A later
    open or error still settles it.) *)
Theorem close_leaves_ready_pending (u : string) (tr tr' : list Input) :
  let b := run tr (new_Broker u) in
  step b SocketClosed = broker_emit EmClose b
  /\ ready (step b SocketClosed) = ready b
  /\ connecting (step b SocketClosed) = connecting b
  /\ ready (step b CallClose) = ready b
  /\ connecting (step b CallClose) = connecting b
  /\ emitted (step b CallClose) = emitted b
  /\ (connecting b = true ->
      forallb (fun inp => negb (is_open_or_error inp)) tr' = true ->
      ready (run tr' b) = Pending /\ connecting (run tr' b) = true).
Proof.
  intros b. do 6 (split; [done|]). intros Hc Hq.
  destruct (run_quiet_pending tr' b Hq) as [-> ->]. split; [|done].
  pose proof (run_ready_inv tr _ (new_Broker_ready_inv u)) as Hinv.
  unfold ready_inv in Hinv. fold b in Hinv. rewrite Hc in Hinv.
  apply not_settled. by destruct (settled (ready b)).
Qed.

Lemma close_leaves_ready_pending_witness :
  let b := run [CallInitiateConnection "peer1" "peer2"] (new_Broker "ws://relay") in
  ready (run [SocketClosed; CallClose; SocketClosed] b) = Pending
  /\ connecting (run [SocketClosed; CallClose; SocketClosed] b) = true.
Proof.
  intros b.
  apply (close_leaves_ready_pending "ws://relay"
           [CallInitiateConnection "peer1" "peer2"]
           [SocketClosed; CallClose; SocketClosed]); reflexivity.
Defined.

(** C10, as stated, fails: the socket closes while the broker is connecting
    and before any open or error event; the transport then reconnects and
    reports open, and readiness resolves. *)
Lemma close_then_open_settles :
  let b := run [SocketClosed] (new_Broker "ws://relay") in
  connecting b = true
  /\ ready b = Pending
  /\ emitted b = [EmClose]
  /\ ready (run [SocketOpen] b) = Fulfilled tt.
Proof. by repeat split. Qed.

(** ** The readiness of a connection *)

Lemma connection_ready_stable c b tr v :
  connection_ready c b = Some v -> settled v = true ->
  connection_ready c (run tr b) = Some v.
Proof.
  unfold connection_ready. intros Hc Hs.
  destruct (peers b !! c_ready c) as [p|] eqn:Hp; [|done].
  cbn in Hc. simplify_eq. by apply run_ready.
Qed.

(** C3. The readiness of a connection settles at most once, on the initiator
    side and on the responder side alike: once it is settled after some
    events, no further event (connect, error or any other input) changes
    it. *)
Theorem connection_ready_settles_at_most_once
    (b : Broker) (from to : string) (message : Message)
    (tr1 tr2 : list Input) (v : Promise.state ReadyValue) :
  settled v = true ->
  (let r := initiateConnection from to b in
   connection_ready r.1 (run tr1 r.2) = Some v ->
   connection_ready r.1 (run (tr1 ++ tr2) r.2) = Some v)
  /\ (let r := _acceptConnection message b in
      connection_ready (accepted_connection message b) (run tr1 r.2) = Some v ->
      connection_ready (accepted_connection message b) (run (tr1 ++ tr2) r.2) = Some v).
Proof.
  intros Hs. split; intros r Hv; rewrite run_app;
    by apply connection_ready_stable.
Qed.

Lemma connection_ready_settles_at_most_once_witness :
  let offer := {| sd_type := "offer"; sd_sdp := "o" |} in
  let message := connect_message "peer1" "peer2" offer in
  let b := new_Broker "ws://relay" in
  let late := [PeerEmit 0 (OnError (Error "late")); PeerEmit 0 OnConnect] in
  connection_ready (initiateConnection "peer1" "peer2" b).1
    (run ([PeerEmit 0 OnConnect] ++ late) (initiateConnection "peer1" "peer2" b).2)
  = Some (Fulfilled Undefined)
  /\ connection_ready (accepted_connection message b)
       (run ([PeerEmit 0 OnConnect] ++ late) (_acceptConnection message b).2)
     = Some (Fulfilled (ThePeer 0)).
Proof.
  intros offer message b late.
  destruct (connection_ready_settles_at_most_once b "peer1" "peer2" message
              [PeerEmit 0 OnConnect] late (Fulfilled Undefined)) as [H1 _];
    [reflexivity|].
  destruct (connection_ready_settles_at_most_once b "peer1" "peer2" message
              [PeerEmit 0 OnConnect] late (Fulfilled (ThePeer 0))) as [_ H2];
    [reflexivity|].
  split; [apply H1 | apply H2]; reflexivity.
Defined.

(** The responder side settles once as well, although its connect callback
    calls [resolveReady] without a guard: an error followed by a connect
    leaves the rejection in place. *)
Example responder_error_then_connect :
  let offer := {| sd_type := "offer"; sd_sdp := "o" |} in
  let message := connect_message "peer1" "peer2" offer in
  let r := _acceptConnection message (new_Broker "ws://relay") in
  connection_ready (accepted_connection message (new_Broker "ws://relay"))
    (run [PeerEmit 0 (OnError (Error "ice failed")); PeerEmit 0 OnConnect] r.2)
  = Some (Rejected (Error "ice failed")).
Proof. reflexivity. Qed.

(** ** The initiator's handshake *)

Lemma initiator_peer_undecided from to : undecided from to (initiator_peer from to).
Proof. done. Qed.

Lemma local_decides from to i b inp p v :
  undecided from to p -> decides i b inp = Some v ->
  ready_of (local i b inp p) = v /\ settled v = true.
Proof.
  destruct p as [o ls sg sc]. intros [Hl Hs] Hd. cbn in Hl, Hs. subst ls sc.
  destruct inp as [| | | |j ev| |k err| |]; cbn in Hd; try done.
  - destruct ev as [err| |]; try done;
      destruct (decide (j = i)) as [->|]; simplify_eq; cbn;
      rewrite decide_True by done; done.
  - cbn. destruct (connection b !! k) as [r|]; [|done].
    destruct (r_settled r); [done|].
    destruct (decide (r_owner r = i)); by simplify_eq.
Qed.

Lemma local_quiet from to i b inp p :
  undecided from to p -> decides i b inp = None ->
  undecided from to (local i b inp p).
Proof.
  destruct p as [o ls sg sc]. intros [Hl Hs] Hd. cbn in Hl, Hs. subst ls sc.
  destruct inp as [| | | |j ev|k answer|k err| |]; cbn in Hd; try done.
  - cbn. destruct (decide (j = i)) as [->|]; [|done].
    destruct ev as [err|data|]; try done.
    unfold emit, call_all, call; cbn.
    by destruct (bool_decide (sd_type data = "offer")).
  - cbn. repeat case_match; done.
  - cbn. destruct (connection b !! k) as [r|]; [|done].
    destruct (r_settled r); [done|].
    by destruct (decide (r_owner r = i)).
Qed.

Lemma run_first_outcome from to tr b i p :
  peers b !! i = Some p -> undecided from to p ->
  ready_of <$> peers (run tr b) !! i = Some (first_outcome i tr b).
Proof.
  revert b p. induction tr as [|inp tr IH]; intros b p Hp Hu.
  - cbn. rewrite Hp. cbn. destruct Hu as [_ Hs]. unfold ready_of. by rewrite Hs.
  - rewrite run_cons. cbn [first_outcome].
    pose proof (step_lookup b inp i p Hp) as Hstep.
    destruct (decides i b inp) as [v|] eqn:Hd.
    + destruct (local_decides from to i b inp p v Hu Hd) as [Hv Hs].
      rewrite <- Hv. apply run_ready; [done|]. by rewrite Hv.
    + eapply IH; [done|]. by eapply local_quiet.
Qed.

(** C4. For every call of [initiateConnection], the readiness of the
    returned connection is decided by whichever happens first: an error
    reported by the capability or the failure of the connect request reject
    it with that error, the capability reporting connected resolves it. *)
Theorem initiator_first_event_wins (b : Broker) (from to : string) (tr : list Input) :
  let r := initiateConnection from to b in
  connection_ready r.1 (run tr r.2) = Some (first_outcome (c_peer r.1) tr r.2).
Proof.
  cbn. unfold connection_ready. cbn.
  eapply run_first_outcome; [|apply initiator_peer_undecided].
  cbn. by apply list_lookup_middle.
Qed.

Section InitiatorScenarios.
Notation start := (initiateConnection "peer1" "peer2" relay).
Notation offer := O1.
Notation answer := A1.

(** offer, answer, connect: readiness resolves. *)
Example initiator_connects :
  connection_ready start.1
    (run [PeerEmit 0 (OnSignal offer); RequestResolved 0 answer; PeerEmit 0 OnConnect] start.2)
  = Some (Fulfilled Undefined).
Proof. reflexivity. Qed.

(** the connect request fails first: readiness rejects with that error,
    and a later connect does not change it. *)
Example initiator_request_fails :
  connection_ready start.1
    (run [PeerEmit 0 (OnSignal offer); RequestRejected 0 (Error "no such peer");
          PeerEmit 0 OnConnect] start.2)
  = Some (Rejected (Error "no such peer")).
Proof. reflexivity. Qed.

(** the capability fails before connecting. *)
Example initiator_peer_fails :
  connection_ready start.1
    (run [PeerEmit 0 (OnError (Error "ice failed")); PeerEmit 0 OnConnect] start.2)
  = Some (Rejected (Error "ice failed")).
Proof. reflexivity. Qed.

(** connected first: a later error or request failure is ignored. *)
Example initiator_connected_first :
  connection_ready start.1
    (run [PeerEmit 0 (OnSignal offer); PeerEmit 0 OnConnect;
          RequestRejected 0 (Error "timeout"); PeerEmit 0 (OnError (Error "late"))] start.2)
  = Some (Fulfilled Undefined).
Proof. reflexivity. Qed.
End InitiatorScenarios.

Lemma initiator_peer_initiator_of from to : initiator_of from to (initiator_peer from to).
Proof. split; [by exists true, true | by eexists _, _]. Qed.

Lemma call_listeners fn self ev p :
  p_listeners (call fn self ev p).1 = p_listeners p.
Proof.
  unfold call. destruct fn, ev, (p_scope p); cbn; try done.
  by destruct (bool_decide _).
Qed.

Lemma emit_listeners i ev p :
  p_listeners (emit i ev p).1 = keep_after (event_name ev) (p_listeners p).
Proof.
  unfold emit.
  apply (call_all_ind (fun q => p_listeners q = keep_after (event_name ev) (p_listeners p)));
    [done|].
  intros fn q Hq. by rewrite call_listeners.
Qed.

Lemma keep_after_init_listeners name e c :
  keep_after name (init_listeners e c) =
    init_listeners (e && negb (bool_decide (name = EvError)))
                   (c && negb (bool_decide (name = EvConnect))).
Proof. by destruct name, e, c. Qed.

Lemma call_initiator_scope from to fn self ev p :
  (exists cn rd, p_scope p = Init {| i_from := from; i_to := to;
                                     i_connecting := cn; i_ready := rd |}) ->
  exists cn rd, p_scope (call fn self ev p).1 =
                  Init {| i_from := from; i_to := to;
                          i_connecting := cn; i_ready := rd |}.
Proof.
  destruct p as [o ls sg sc]. intros (cn & rd & Hs). cbn in Hs. subst sc.
  unfold call. destruct fn, ev; cbn; unfold_handlers; cbn;
    try destruct (bool_decide _); destruct cn; by eexists _, _.
Qed.

Lemma emit_initiator_of from to i ev p :
  initiator_of from to p -> initiator_of from to (emit i ev p).1.
Proof.
  intros [(e & c & Hl) Hs]. split.
  - rewrite emit_listeners, Hl, keep_after_init_listeners. by eexists _, _.
  - unfold emit.
    apply (call_all_ind
             (fun q => exists cn rd, p_scope q =
                Init {| i_from := from; i_to := to;
                        i_connecting := cn; i_ready := rd |})); [done|].
    intros fn q Hq. by apply call_initiator_scope.
Qed.

Lemma local_initiator_of from to i b inp p :
  initiator_of from to p -> initiator_of from to (local i b inp p).
Proof.
  intros Hp. destruct inp; cbn; try done.
  - case_decide; [by apply emit_initiator_of | done].
  - repeat case_match; done.
  - repeat case_match; try done.
    destruct p as [o ls sg sc]. destruct Hp as [Hl (cn & rd & Hs)].
    cbn in Hs. subst sc. split; [done|].
    unfold request_catch, init_fail; cbn. destruct cn; cbn; by eexists _, _.
Qed.

Lemma run_initiator_of from to tr b i p :
  peers b !! i = Some p -> initiator_of from to p ->
  exists p', peers (run tr b) !! i = Some p' /\ initiator_of from to p'.
Proof.
  revert b p. induction tr as [|inp tr IH]; intros b p Hp Hi; [by exists p|].
  rewrite run_cons. eapply IH; [by apply step_lookup | by apply local_initiator_of].
Qed.

Lemma emit_signal_requests from to i data p :
  initiator_of from to p ->
  (emit i (OnSignal data) p).2 =
    if bool_decide (sd_type data = "offer")
    then [connect_message from to data] else [].
Proof.
  destruct p as [o ls sg sc]. intros [(e & c & Hl) (cn & rd & Hs)].
  cbn in Hl, Hs. subst ls sc.
  destruct e, c; unfold emit, call_all, call; cbn;
    by destruct (bool_decide (sd_type data = "offer")).
Qed.

Lemma run_request tr b k r :
  connection b !! k = Some r ->
  exists r', connection (run tr b) !! k = Some r'
             /\ r_owner r' = r_owner r /\ r_message r' = r_message r.
Proof.
  revert b r. induction tr as [|inp tr IH]; intros b r Hr; [by exists r|].
  rewrite run_cons.
  destruct (step_request b inp k r Hr) as (r1 & Hr1 & Ho1 & Hm1).
  destruct (IH _ _ Hr1) as (r2 & Hr2 & Ho2 & Hm2).
  exists r2. split; [done|]. split; congruence.
Qed.

(** C1. For every call of [initiateConnection from to], at any later time:
    when the capability emits a signal, the broker issues one request on the
    transacted channel, with type "connect", the [from] and [to] of the call
    and the signal as [offer], if the signal's type is "offer", and none
    otherwise; and when that request, still pending, resolves with an
    answer, the answer is fed to the same capability through [signal] and no
    other peer is touched. *)
Theorem initiator_offer_request_answer
    (b : Broker) (from to : string) (tr tr' : list Input)
    (data answer : SessionDescription) :
  let r := initiateConnection from to b in
  let i := c_peer r.1 in
  let b1 := run tr r.2 in
  let b2 := step b1 (PeerEmit i (OnSignal data)) in
  let k := length (connection b1) in
  let b3 := run tr' b2 in
  connection b2 =
    connection b1 ++
      (if bool_decide (sd_type data = "offer")
       then [ {| r_owner := i;
                 r_message := {| m_type := "connect"; m_from := from;
                                 m_to := to; m_offer := data |};
                 r_settled := false |} ]
       else [])
  /\ (sd_type data = "offer" ->
      is_pending k b3 = true ->
      is_Some (peers b3 !! i)
      /\ peers (step b3 (RequestResolved k answer)) = alter (signal answer) i (peers b3)
      /\ length (connection (step b3 (RequestResolved k answer))) = length (connection b3)).
Proof.
  intros r i b1 b2 k b3.
  destruct (run_initiator_of from to tr r.2 i (initiator_peer from to)) as (p1 & Hp1 & Hi1).
  { cbn. by apply list_lookup_middle. }
  { apply initiator_peer_initiator_of. }
  fold b1 in Hp1. clearbody i b1.
  assert (connection b2 =
            connection b1 ++
              (if bool_decide (sd_type data = "offer")
               then [new_request i (connect_message from to data)] else [])) as Hb2.
  { unfold b2. cbn. unfold peer_emit. rewrite Hp1. cbn.
    rewrite (emit_signal_requests from to) by done.
    by destruct (bool_decide (sd_type data = "offer")). }
  assert (peers b2 !! i = Some (local i b1 (PeerEmit i (OnSignal data)) p1)) as Hp2.
  { by apply step_lookup. }
  clearbody b2. split; [exact Hb2|].
  intros Hoffer Hpend.
  rewrite bool_decide_eq_true_2 in Hb2 by done.
  assert (connection b2 !! k = Some (new_request i (connect_message from to data))) as Hk.
  { rewrite Hb2. by apply list_lookup_middle. }
  destruct (run_request tr' b2 k _ Hk) as (r3 & Hr3 & Ho3 & _). fold b3 in Hr3.
  cbn in Ho3.
  unfold is_pending in Hpend. rewrite Hr3 in Hpend. apply negb_true_iff in Hpend.
  destruct (run_initiator_of from to tr' b2 i _ Hp2) as (p3 & Hp3 & _).
  { by apply local_initiator_of. }
  fold b3 in Hp3. clearbody b3 k.
  split; [by exists p3|].
  cbn. unfold request_settled. rewrite Hr3, Hpend, Ho3. cbn.
  split; [done|]. by rewrite length_insert.
Qed.

Lemma initiator_offer_request_answer_witness :
  let O1 := {| sd_type := "offer"; sd_sdp := "o1" |} in
  let A1 := {| sd_type := "answer"; sd_sdp := "a1" |} in
  let b2 := run [CallInitiateConnection "peer1" "peer2"; PeerEmit 0 (OnSignal O1)]
              (new_Broker "ws://relay") in
  connection b2 =
    [ {| r_owner := 0;
         r_message := {| m_type := "connect"; m_from := "peer1";
                         m_to := "peer2"; m_offer := O1 |};
         r_settled := false |} ]
  /\ p_signalled <$> peers (step b2 (RequestResolved 0 A1)) !! 0 = Some [A1].
Proof.
  intros O1 A1 b2.
  destruct (initiator_offer_request_answer (new_Broker "ws://relay")
              "peer1" "peer2" [] [] O1 A1) as [H1 H2].
  split; [exact H1|].
  destruct H2 as (_ & H3 & _); [reflexivity | reflexivity |].
  cbn in H3. unfold b2. cbn. rewrite H3. reflexivity.
Defined.

(** ** The responder's handshake *)

Lemma responder_peer_unanswered message : unanswered message (responder_peer message).
Proof. split; [by exists true | by eexists _, _]. Qed.

Lemma local_answers message i b inp p v :
  unanswered message p -> answers i inp = Some v ->
  result_of (local i b inp p) = Some v /\ settled v = true.
Proof.
  destruct p as [o ls sg sc]. intros [(c & Hl) (dn & rd & Hs)] Ha.
  cbn in Hl, Hs. subst ls sc.
  destruct inp as [| | | |j ev| | | |]; cbn in Ha; try done.
  destruct (decide (j = i)) as [->|]; [|by destruct ev].
  cbn. rewrite decide_True by done.
  destruct ev as [err|data|]; try done.
  - simplify_eq. by destruct c, dn.
  - destruct (bool_decide (sd_type data = "answer")) eqn:Hd; [|done]. simplify_eq.
    destruct c; unfold emit, call_all, call; cbn; unfold acc_answer; by rewrite Hd.
Qed.

Lemma local_unanswered message i b inp p :
  unanswered message p -> answers i inp = None ->
  unanswered message (local i b inp p).
Proof.
  destruct p as [o ls sg sc]. intros [(c & Hl) (dn & rd & Hs)] Ha.
  cbn in Hl, Hs. subst ls sc.
  match goal with
  | |- unanswered _ (local _ _ _ ?q) =>
      assert (unanswered message q) as Hsame
        by (split; [by exists c | by eexists _, _])
  end.
  destruct inp as [| | | |j ev|k answer|k err| |]; cbn in Ha; try exact Hsame.
  - cbn. destruct (decide (j = i)) as [->|]; [|done].
    destruct ev as [err|data|]; try done.
    + destruct (bool_decide (sd_type data = "answer")) eqn:Hd; [done|].
      destruct c; unfold emit, call_all, call; cbn; unfold acc_answer; rewrite Hd;
        (split; [ first [by exists true | by exists false] | by eexists _, _ ]).
    + destruct c; (split; [by exists false | by eexists _, _ ]).
  - cbn. repeat case_match; try done; (split; [by exists c | by eexists _, _ ]).
  - cbn. repeat case_match; try done; (split; [by exists c | by eexists _, _ ]).
Qed.

Lemma run_first_answer message tr b i p :
  peers b !! i = Some p -> unanswered message p ->
  accept_result i (run tr b) = Some (first_answer i tr).
Proof.
  revert b p. induction tr as [|inp tr IH]; intros b p Hp Hu.
  - cbn. unfold accept_result. rewrite Hp. by destruct Hu as [_ (dn & rd & ->)].
  - rewrite run_cons. cbn [first_answer].
    pose proof (step_lookup b inp i p Hp) as Hstep.
    destruct (answers i inp) as [v|] eqn:Ha.
    + destruct (local_answers message i b inp p v Hu Ha) as [Hv Hs].
      by eapply run_result.
    + eapply IH; [done|]. by eapply local_unanswered.
Qed.

(** C6. [_acceptConnection] creates a peer configured as responder
    (initiator false), feeds it the inbound offer, and returns a promise that
    is settled by whichever comes first from the capability: a signal whose
    type is "answer" resolves it with that signal, an error rejects it with
    that error. *)
Theorem accept_result_first_answer_or_error
    (b : Broker) (message : Message) (tr : list Input) :
  let r := _acceptConnection message b in
  initiator <$> (p_options <$> peers r.2 !! r.1) = Some false
  /\ p_options <$> peers r.2 !! r.1 = Some responder_options
  /\ p_signalled <$> peers r.2 !! r.1 = Some [m_offer message]
  /\ accept_result r.1 r.2 = Some Pending
  /\ accept_result r.1 (run tr r.2) = Some (first_answer r.1 tr).
Proof.
  cbn.
  assert ((peers b ++ [responder_peer message]) !! length (peers b)
          = Some (responder_peer message)) as Hp by (by apply list_lookup_middle).
  unfold accept_result. cbn. rewrite Hp. repeat split.
  eapply (run_first_answer message); [|apply responder_peer_unanswered].
  exact Hp.
Qed.

Section ResponderScenarios.
Notation start := (_acceptConnection (connect_message "peer1" "peer2" O1) relay).
Notation answer := A1.

Example responder_answers :
  accept_result start.1
    (run [PeerEmit 0 (OnSignal answer); PeerEmit 0 (OnError (Error "late"))] start.2)
  = Some (Fulfilled answer).
Proof. reflexivity. Qed.

Example responder_fails :
  accept_result start.1
    (run [PeerEmit 0 (OnError (Error "bad offer")); PeerEmit 0 (OnSignal answer)] start.2)
  = Some (Rejected (Error "bad offer")).
Proof. reflexivity. Qed.
End ResponderScenarios.

(** ** The 'connection' event *)

Lemma step_emitted b inp : exists l, emitted (step b inp) = emitted b ++ l.
Proof.
  destruct inp; cbn; unfold_step; cbn; repeat case_match; cbn;
    first [ by exists []; rewrite app_nil_r | by eexists ].
Qed.

Lemma run_emitted tr b : exists l, emitted (run tr b) = emitted b ++ l.
Proof.
  revert b. induction tr as [|inp tr IH]; intros b.
  - exists []. by rewrite app_nil_r.
  - rewrite run_cons. destruct (IH (step b inp)) as [l2 ->].
    destruct (step_emitted b inp) as [l1 ->].
    exists (l1 ++ l2). by rewrite app_assoc.
Qed.

Lemma get_connect : get functions "connect" = Some AcceptConnection.
Proof. reflexivity. Qed.

(** C7. [_acceptConnection] emits, before it returns and while the promise
    it returns is still pending, a 'connection' event carrying a new
    connection whose remote id is the [from] of the message; whatever happens
    later (the promise resolving or rejecting included), the event has been
    emitted.  An inbound request of type "connect" is dispatched to it. *)
Theorem accept_emits_connection (b : Broker) (message : Message) (tr : list Input) :
  let r := _acceptConnection message b in
  let c := accepted_connection message b in
  emitted r.2 = emitted b ++ [EmConnection c]
  /\ c_id c = m_from message
  /\ c_peer c = r.1
  /\ peers b !! c_peer c = None
  /\ accept_result r.1 r.2 = Some Pending
  /\ (exists rest, emitted (run tr r.2) = emitted b ++ EmConnection c :: rest)
  /\ (m_type message = "connect" -> on_request message b = (Return (VPromise r.1), r.2)).
Proof.
  intros r c. split; [done|]. split; [done|]. split; [done|].
  split; [by apply lookup_ge_None_2|].
  split.
  { unfold accept_result. cbn. by rewrite list_lookup_middle. }
  split.
  - destruct (run_emitted tr r.2) as [rest ->]. exists rest.
    cbn. by rewrite <- app_assoc.
  - intros Ht. unfold on_request. by rewrite Ht, get_connect.
Qed.

Lemma accept_emits_connection_witness :
  let offer := {| sd_type := "offer"; sd_sdp := "o1" |} in
  let message := connect_message "peer1" "peer2" offer in
  let b := new_Broker "ws://relay" in
  emitted (on_request message b).2
  = [EmConnection {| c_id := "peer1"; c_peer := 0; c_ready := 0 |}].
Proof.
  intros offer message b.
  destruct (accept_emits_connection b message []) as (H1 & _ & _ & _ & _ & _ & H2).
  rewrite H2 by reflexivity. exact H1.
Defined.

(** The event is there whether the returned promise rejects or resolves. *)
Example connection_emitted_when_rejected :
  let offer := {| sd_type := "offer"; sd_sdp := "o1" |} in
  let b := run [InboundRequest (connect_message "peer1" "peer2" offer);
                PeerEmit 0 (OnError (Error "bad offer"))] (new_Broker "ws://relay") in
  accept_result 0 b = Some (Rejected (Error "bad offer"))
  /\ emitted b = [EmConnection {| c_id := "peer1"; c_peer := 0; c_ready := 0 |}].
Proof. split; reflexivity. Qed.

(** ** initiateConnection returns at once *)

(** C8. [initiateConnection from to] returns a connection to [to] at once:
    it wraps a freshly created peer configured with initiator true, trickle
    false and the default STUN servers, and a readiness promise that is
    still pending; no request has been sent, nothing was fed to the peer,
    nothing was emitted and no existing peer was touched. *)
Theorem initiateConnection_returns_immediately (b : Broker) (from to : string) :
  let r := initiateConnection from to b in
  c_id r.1 = to
  /\ peers b !! c_peer r.1 = None
  /\ p_options <$> peers r.2 !! c_peer r.1 =
       Some {| initiator := true; trickle := false;
               config := Some {| iceServers :=
                 [ {| urls := [ "stun:stun.l.google.com:19302";
                                "stun:stun1.l.google.com:19302";
                                "stun:stun2.l.google.com:19302";
                                "stun:stun3.l.google.com:19302";
                                "stun:stun4.l.google.com:19302" ] |} ] |} |}
  /\ connection_ready r.1 r.2 = Some Pending
  /\ p_signalled <$> peers r.2 !! c_peer r.1 = Some []
  /\ connection r.2 = connection b
  /\ socket r.2 = socket b
  /\ emitted r.2 = emitted b
  /\ ready r.2 = ready b
  /\ (forall j, j < length (peers b) -> peers r.2 !! j = peers b !! j).
Proof.
  cbn. unfold connection_ready. cbn.
  rewrite list_lookup_middle by done. cbn.
  repeat split.
  - by apply lookup_ge_None_2.
  - intros j Hj. by apply lookup_app_l.
Qed.

Lemma initiateConnection_returns_immediately_witness :
  let b := (initiateConnection "peer0" "peer9" (new_Broker "ws://relay")).2 in
  peers (initiateConnection "peer1" "peer2" b).2 !! 0 = peers b !! 0.
Proof.
  intros b.
  destruct (initiateConnection_returns_immediately b "peer1" "peer2")
    as (_ & _ & _ & _ & _ & _ & _ & _ & _ & H).
  apply H. cbn. lia.
Defined.

(** ** close *)

(** C9. [close] calls [close] on the relay socket and changes nothing else:
    the peers with their closures (hence every connection's capability and
    readiness), the requests, the emitted events and the broker's own
    readiness are as before; the close callback that the socket then fires
    leaves the peers and requests alone as well; and a connection whose
    readiness has settled keeps it whatever follows the close. *)
Theorem close_only_closes_socket
    (b : Broker) (c : Connection) (tr : list Input) (v : Promise.state ReadyValue) :
  socket (close b) = socket b ++ [SocketClose]
  /\ peers (close b) = peers b
  /\ connection (close b) = connection b
  /\ emitted (close b) = emitted b
  /\ ready (close b) = ready b
  /\ connecting (close b) = connecting b
  /\ url (close b) = url b
  /\ returned (close b) = returned b
  /\ connection_ready c (close b) = connection_ready c b
  /\ peers (step (close b) SocketClosed) = peers b
  /\ connection (step (close b) SocketClosed) = connection b
  /\ (connection_ready c b = Some v -> settled v = true ->
      connection_ready c (run tr (close b)) = Some v).
Proof.
  do 11 (split; [done|]). intros Hv Hs.
  by apply connection_ready_stable.
Qed.

Lemma close_only_closes_socket_witness :
  let b := run [CallInitiateConnection "peer1" "peer2"; PeerEmit 0 OnConnect]
             (new_Broker "ws://relay") in
  let c := {| c_id := "peer2"; c_peer := 0; c_ready := 0 |} in
  connection_ready c
    (run [SocketClosed; RequestRejected 0 (Error "transport closed")] (close b))
  = Some (Fulfilled Undefined).
Proof.
  intros b c.
  apply (close_only_closes_socket b c
           [SocketClosed; RequestRejected 0 (Error "transport closed")]
           (Fulfilled Undefined)); reflexivity.
Defined.

(** ** Dispatch of inbound requests *)

(** A type that is neither registered nor a member of [Object.prototype]
    makes the callback throw the unknown-message-type error, and leaves the
    broker as it is. *)
Lemma on_request_unknown (message : Message) (b : Broker) :
  functions !! m_type message = None ->
  m_type message ∉ Object_prototype ->
  on_request message b = (Throw (unknown_message_type (m_type message)), b).
Proof.
  intros Hown Hproto. unfold on_request, get. rewrite Hown.
  by rewrite bool_decide_eq_false_2.
Qed.

Example on_request_unknown_foo :
  (on_request {| m_type := "foo"; m_from := "peer1"; m_to := "peer2";
                 m_offer := {| sd_type := "offer"; sd_sdp := "" |} |}
     (new_Broker "ws://relay")).1
  = Throw (Error (String.append "Unknown message type "
                    (String.append dquote (String.append "foo" dquote)))).
Proof. reflexivity. Qed.

(** C5, at the input where it fails.  "toString" is not a registered
    handler key, yet [this.functions["toString"]] finds the member inherited
    from [Object.prototype]; the test [!fn] does not fire, the callback calls
    it and returns a string, and no unknown-message-type error is raised. *)
Theorem on_request_inherited_key_not_rejected
    (b : Broker) (from to : string) (offer : SessionDescription) :
  let message := {| m_type := "toString"; m_from := from; m_to := to; m_offer := offer |} in
  functions !! m_type message = None
  /\ on_request message b = (Return (VString "[object Undefined]"), b)
  /\ (on_request message b).1 <> Throw (unknown_message_type (m_type message)).
Proof. cbn. by repeat split. Qed.

(** * Further properties of the broker *)

(** ** Relay events and what observers see *)

Lemma get_functions_cases (type : string) :
  get functions type =
    if bool_decide (type = "connect") then Some AcceptConnection
    else if bool_decide (type ∈ Object_prototype) then Some (Inherited type)
    else None.
Proof.
  unfold get, functions. destruct (decide (type = "connect")) as [->|Hne].
  - reflexivity.
  - rewrite lookup_singleton_ne by done. by rewrite (bool_decide_eq_false_2 _ Hne).
Qed.

Lemma step_emitted_events b inp :
  emitted (step b inp) = emitted b ++ step_events b inp.
Proof.
  destruct inp; cbn.
  - unfold onopen. cbn. by destruct (connecting b).
  - done.
  - unfold onerror. destruct (connecting b); cbn; [by rewrite app_nil_r | done].
  - unfold on_request. rewrite get_functions_cases.
    repeat case_bool_decide; cbn; by rewrite ?app_nil_r.
  - unfold peer_emit. destruct (peers b !! peer); cbn; by rewrite app_nil_r.
  - unfold request_settled. repeat case_match; cbn; by rewrite app_nil_r.
  - unfold request_settled. repeat case_match; cbn; by rewrite app_nil_r.
  - by rewrite app_nil_r.
  - by rewrite app_nil_r.
Qed.

(** X1. In every state the broker reaches, [connecting] is true exactly
    while its readiness is pending. *)
Theorem broker_connecting_iff_pending (u : string) (tr : list Input) :
  let b := run tr (new_Broker u) in
  connecting b = negb (settled (ready b)).
Proof. apply run_ready_inv, new_Broker_ready_inv. Qed.

Lemma emitted_errors_app l1 l2 :
  emitted_errors (l1 ++ l2) = emitted_errors l1 ++ emitted_errors l2.
Proof. apply omap_app. Qed.

Lemma step_connecting_false b inp :
  connecting b = false -> connecting (step b inp) = false.
Proof.
  intros Hc. destruct (is_open_or_error inp) eqn:Hq.
  - destruct inp; try done; cbn; unfold onopen, onerror; cbn; by rewrite Hc.
  - destruct (step_other_ready b inp Hq) as [_ ->]. done.
Qed.

Lemma run_settled_errors tr b :
  connecting b = false ->
  emitted_errors (emitted (run tr b)) = emitted_errors (emitted b) ++ relay_errors tr.
Proof.
  revert b. induction tr as [|inp tr IH]; intros b Hc.
  - by rewrite app_nil_r.
  - rewrite run_cons, IH by (by apply step_connecting_false).
    rewrite step_emitted_events, emitted_errors_app, <- app_assoc. f_equal.
    destruct inp; cbn; try done. rewrite Hc. done.
    by case_bool_decide.
Qed.

Lemma run_connecting_errors tr b :
  connecting b = true ->
  emitted_errors (emitted (run tr b)) = emitted_errors (emitted b) ++ later_errors tr.
Proof.
  revert b. induction tr as [|inp tr IH]; intros b Hc.
  - by rewrite app_nil_r.
  - rewrite run_cons. destruct (is_open_or_error inp) eqn:Hq.
    + rewrite run_settled_errors.
      * rewrite step_emitted_events, emitted_errors_app, <- app_assoc. f_equal.
        destruct inp; try done; cbn; by rewrite ?Hc.
      * destruct inp; try done; cbn; unfold onopen, onerror; cbn; by rewrite Hc.
    + destruct (step_other_ready b inp Hq) as [_ Hc'].
      rewrite IH by congruence.
      rewrite step_emitted_events, emitted_errors_app, <- app_assoc. f_equal.
      destruct inp; try done; cbn. by case_bool_decide.
Qed.

(** X2. The 'error' events the broker emits are exactly the relay errors
    that arrive after the first open or error event: an error that arrives
    while the broker is still connecting rejects readiness and is not
    emitted. *)
Theorem emitted_errors_are_the_later_ones (u : string) (tr : list Input) :
  emitted_errors (emitted (run tr (new_Broker u))) = later_errors tr.
Proof. by rewrite run_connecting_errors. Qed.

Lemma count_app {A} (f : A -> bool) l1 l2 : count f (l1 ++ l2) = count f l1 + count f l2.
Proof. unfold count. by rewrite List.filter_app, length_app. Qed.

Lemma run_count_emitted (f : BrokerEvent -> bool) (g : Input -> bool) :
  (forall b inp, count f (step_events b inp) = if g inp then 1 else 0) ->
  forall tr b, count f (emitted (run tr b)) = count f (emitted b) + count g tr.
Proof.
  intros Hfg. induction tr as [|inp tr IH]; intros b.
  - cbn. lia.
  - rewrite run_cons, IH, step_emitted_events, count_app, Hfg.
    unfold count at 4. cbn. destruct (g inp); cbn; fold (count g tr); lia.
Qed.

(** X3. Every open and every close the relay reports is emitted, whatever
    the state of the broker: the numbers of 'open' and 'close' events grow
    by the numbers of open and close callbacks of the run. *)
Theorem every_open_and_close_is_emitted (b : Broker) (tr : list Input) :
  count is_EmOpen (emitted (run tr b)) = count is_EmOpen (emitted b) + count is_open tr
  /\ count is_EmClose (emitted (run tr b)) = count is_EmClose (emitted b) + count is_closed tr.
Proof.
  split; apply run_count_emitted; intros b' inp;
    destruct inp; cbn; try done;
    try (by destruct (connecting b')); by case_bool_decide.
Qed.

(** X4. Every inbound request of type "connect" emits exactly one
    'connection' event, and nothing else ever emits one. *)
Theorem one_connection_event_per_inbound_connect (b : Broker) (tr : list Input) :
  count is_EmConnection (emitted (run tr b))
  = count is_EmConnection (emitted b) + count is_inbound_connect tr.
Proof.
  apply run_count_emitted. intros b' inp.
  destruct inp; cbn; try done; [by destruct (connecting b') | by case_bool_decide].
Qed.

(** ** Peers are created once per handshake and never removed *)

Lemma step_peers_length b inp :
  length (peers (step b inp)) = length (peers b) + (if starts_handshake inp then 1 else 0).
Proof.
  destruct inp; cbn.
  - unfold onopen. cbn. destruct (connecting b); cbn; lia.
  - lia.
  - unfold onerror. destruct (connecting b); cbn; lia.
  - unfold on_request. rewrite get_functions_cases.
    repeat case_bool_decide; cbn; rewrite ?length_app; cbn; lia.
  - unfold peer_emit. destruct (peers b !! peer); cbn; rewrite ?length_insert; lia.
  - unfold request_settled. repeat case_match; cbn; rewrite ?length_alter; lia.
  - unfold request_settled. repeat case_match; cbn; rewrite ?length_alter; lia.
  - rewrite length_app. cbn. lia.
  - lia.
Qed.

(** X5. The broker creates exactly one peer for every call of
    [initiateConnection] and for every inbound request of type "connect",
    without looking for an existing handshake of the same pair, and never
    removes a peer. *)
Theorem one_peer_per_handshake (b : Broker) (tr : list Input) :
  length (peers (run tr b)) = length (peers b) + count starts_handshake tr.
Proof.
  revert b. induction tr as [|inp tr IH]; intros b.
  - cbn. lia.
  - rewrite run_cons, IH, step_peers_length. unfold count. cbn.
    destruct (starts_handshake inp); cbn; lia.
Qed.

(** ** The request dispatcher *)

Lemma call_inherited_not_unknown key message type :
  call_inherited key message <> Throw (unknown_message_type type).
Proof. unfold call_inherited. by repeat case_bool_decide. Qed.

(** X8. The request callback throws the unknown-message-type error exactly
    for the types that are neither "connect" nor the name of a member of
    [Object.prototype]; and whatever the type, a request that is not of type
    "connect" leaves the broker and its peers as they are. *)
Theorem on_request_dispatch (message : Message) (b : Broker) :
  ((on_request message b).1 = Throw (unknown_message_type (m_type message))
   <-> m_type message <> "connect" /\ m_type message ∉ Object_prototype)
  /\ (m_type message <> "connect" -> (on_request message b).2 = b)
  /\ (m_type message = "connect" ->
      on_request message b
      = (Return (VPromise (length (peers b))), (_acceptConnection message b).2)).
Proof.
  unfold on_request. rewrite get_functions_cases.
  destruct (decide (m_type message = "connect")) as [Hc|Hc].
  - rewrite (bool_decide_eq_true_2 _ Hc). cbn. split; [|done].
    split; [done|]. by intros [? _].
  - rewrite (bool_decide_eq_false_2 _ Hc).
    destruct (decide (m_type message ∈ Object_prototype)) as [Hp|Hp].
    + rewrite (bool_decide_eq_true_2 _ Hp). cbn. split; [|done].
      split; [|by intros [_ ?]].
      intros Hu. by apply call_inherited_not_unknown in Hu.
    + rewrite (bool_decide_eq_false_2 _ Hp). cbn. done.
Qed.

Lemma on_request_dispatch_witness :
  let message := {| m_type := "register"; m_from := "peer1"; m_to := "peer2";
                    m_offer := O1 |} in
  on_request message relay = (Throw (unknown_message_type "register"), relay).
Proof.
  intros message.
  destruct (on_request_dispatch message relay) as ([_ H1] & H2 & _).
  rewrite (surjective_pairing (on_request message relay)).
  rewrite H1, H2; [reflexivity | | ].
  - by vm_compute.
  - split; [by vm_compute|]. intros Hin.
    apply (bool_decide_eq_true_2 _) in Hin. vm_compute in Hin. discriminate Hin.
Defined.

(** ** What is fixed about a peer *)

Lemma call_frame fn self ev p :
  handshake_of (call fn self ev p).1 = handshake_of p
  /\ p_options (call fn self ev p).1 = p_options p
  /\ p_signalled (call fn self ev p).1 = p_signalled p.
Proof.
  destruct p as [o ls sg [s|s]]; unfold handshake_of, call; cbn;
    destruct fn, ev; cbn; unfold_handlers; cbn; try done;
    repeat match goal with
           | |- context [bool_decide ?P] => destruct (bool_decide P)
           | |- context [i_connecting s] => destruct (i_connecting s)
           | |- context [a_connecting s] => destruct (a_connecting s)
           | |- context [a_done s] => destruct (a_done s)
           end; done.
Qed.

Lemma emit_frame i ev p :
  handshake_of (emit i ev p).1 = handshake_of p
  /\ p_options (emit i ev p).1 = p_options p
  /\ p_signalled (emit i ev p).1 = p_signalled p.
Proof.
  unfold emit.
  apply (call_all_ind (fun q => handshake_of q = handshake_of p
                                /\ p_options q = p_options p
                                /\ p_signalled q = p_signalled p)); [done|].
  intros fn q (H1 & H2 & H3).
  destruct (call_frame fn i ev q) as (-> & -> & ->). done.
Qed.

Lemma request_catch_frame err p :
  handshake_of (request_catch err p) = handshake_of p
  /\ p_options (request_catch err p) = p_options p
  /\ p_signalled (request_catch err p) = p_signalled p
  /\ p_listeners (request_catch err p) = p_listeners p.
Proof.
  destruct p as [o ls sg [s|s]]; unfold handshake_of, request_catch; cbn; [|done].
  unfold init_fail. by destruct (i_connecting s).
Qed.

Lemma local_frame i b inp p :
  handshake_of (local i b inp p) = handshake_of p
  /\ p_options (local i b inp p) = p_options p.
Proof.
  destruct inp; cbn; try done.
  - case_decide; [|done]. destruct (emit_frame i ev p) as (-> & -> & _). done.
  - repeat case_match; done.
  - repeat case_match; try done.
    destruct (request_catch_frame err p) as (-> & -> & _). done.
Qed.

(** X9. Nothing reconfigures a peer: at any later time it has the options
    it was created with and belongs to the handshake that created it. *)
Theorem peer_options_never_change (b : Broker) (tr : list Input) (i : nat) (p : Peer) :
  peers b !! i = Some p ->
  exists p', peers (run tr b) !! i = Some p'
             /\ p_options p' = p_options p
             /\ handshake_of p' = handshake_of p.
Proof.
  revert b p. induction tr as [|inp tr IH]; intros b p Hp; [by exists p|].
  rewrite run_cons.
  destruct (IH _ _ (step_lookup b inp i p Hp)) as (p' & Hp' & Ho & Hh).
  destruct (local_frame i b inp p) as [Hh1 Ho1].
  exists p'. split; [done|]. split; congruence.
Qed.

Lemma peer_options_never_change_witness :
  let b := (initiateConnection "peer1" "peer2" relay).2 in
  exists p', peers (run [PeerEmit 0 (OnSignal O1); RequestResolved 0 A1; PeerEmit 0 OnConnect] b) !! 0
             = Some p'
             /\ p_options p' = initiator_options
             /\ handshake_of p' = inl ("peer1", "peer2").
Proof.
  intros b.
  apply (peer_options_never_change b
           [PeerEmit 0 (OnSignal O1); RequestResolved 0 A1; PeerEmit 0 OnConnect]
           0 (initiator_peer "peer1" "peer2")).
  reflexivity.
Defined.

(** ** Well-formedness of the reachable states *)

Lemma call_all_no_requests (Q : Peer -> Prop) fns self ev p :
  Q p ->
  (forall fn q, Q q -> Q (call fn self ev q).1 /\ (call fn self ev q).2 = []) ->
  (call_all fns self ev p).2 = [].
Proof.
  intros Hp Hcall. unfold call_all.
  assert (forall acc : Peer * list Message, Q acc.1 -> acc.2 = [] ->
            (fold_left (fun acc fn => let r := call fn self ev acc.1 in
                                      (r.1, acc.2 ++ r.2)) fns acc).2 = []) as Hgen.
  { induction fns as [|fn fns IH]; intros acc Hq Ha; cbn; [done|].
    destruct (Hcall fn acc.1 Hq) as [Hq' He].
    apply IH; cbn; [done|]. by rewrite Ha, He. }
  by apply Hgen.
Qed.

Lemma emit_responder_no_requests i ev p message :
  handshake_of p = inr message -> (emit i ev p).2 = [].
Proof.
  intros Hh. unfold emit.
  apply (call_all_no_requests (fun q => handshake_of q = inr message)).
  - done.
  - intros fn q Hq. destruct (call_frame fn i ev q) as (-> & _). split; [done|].
    destruct q as [o ls sg [s|s]]; unfold handshake_of in Hq; cbn in Hq; [done|].
    unfold call; cbn. by destruct fn, ev.
Qed.

Lemma emit_initiator_other_no_requests i ev p ft :
  handshake_of p = inl ft -> event_name ev <> EvSignal -> (emit i ev p).2 = [].
Proof.
  intros Hh Hev. unfold emit.
  apply (call_all_no_requests (fun q => handshake_of q = inl ft)).
  - done.
  - intros fn q Hq. destruct (call_frame fn i ev q) as (-> & _). split; [done|].
    destruct q as [o ls sg [s|s]]; unfold handshake_of in Hq; cbn in Hq; [|done].
    unfold call; cbn. by destruct fn, ev.
Qed.

Lemma handshake_initiator_of from to p :
  handshake_of p = inl (from, to) ->
  (exists e c, p_listeners p = init_listeners e c) ->
  initiator_of from to p.
Proof.
  intros Hh Hl. split; [done|].
  destruct p as [o ls sg [[f t cn rd]|s]]; unfold handshake_of in Hh; cbn in *; [|done].
  simplify_eq. by eexists _, _.
Qed.

(** The requests an event on a well-formed peer issues. *)
Lemma emit_requests i ev p m :
  peer_ok p -> m ∈ (emit i ev p).2 ->
  exists from to data,
    handshake_of p = inl (from, to) /\ ev = OnSignal data
    /\ sd_type data = "offer" /\ m = connect_message from to data.
Proof.
  unfold peer_ok. intros Hok Hm.
  destruct (handshake_of p) as [[from to]|message] eqn:Hh.
  - destruct Hok as [_ Hl].
    destruct ev as [err|data|].
    + rewrite (emit_initiator_other_no_requests _ _ _ _ Hh) in Hm by done.
      by apply elem_of_nil in Hm.
    + rewrite (emit_signal_requests from to) in Hm
        by (by apply handshake_initiator_of).
      case_bool_decide as Ho; [|by apply elem_of_nil in Hm].
      apply list_elem_of_singleton in Hm. by exists from, to, data.
    + rewrite (emit_initiator_other_no_requests _ _ _ _ Hh) in Hm by done.
      by apply elem_of_nil in Hm.
  - rewrite (emit_responder_no_requests _ _ _ _ Hh) in Hm. by apply elem_of_nil in Hm.
Qed.

Lemma keep_after_acc_listeners name c e :
  keep_after name (acc_listeners c e) =
    acc_listeners (c && negb (bool_decide (name = EvConnect)))
                  (e && negb (bool_decide (name = EvError))).
Proof. by destruct name, c, e. Qed.

Lemma emit_peer_ok i ev p : peer_ok p -> peer_ok (emit i ev p).1.
Proof.
  unfold peer_ok. destruct (emit_frame i ev p) as (-> & -> & ->).
  rewrite emit_listeners.
  destruct (handshake_of p) as [ft|message].
  - intros [Ho (e & c & ->)]. split; [done|].
    rewrite keep_after_init_listeners. by eexists _, _.
  - intros (Ho & Hs & (c & e & ->)). split; [done|]. split; [done|].
    rewrite keep_after_acc_listeners. by eexists _, _.
Qed.

Lemma request_catch_peer_ok err p : peer_ok p -> peer_ok (request_catch err p).
Proof.
  unfold peer_ok. by destruct (request_catch_frame err p) as (-> & -> & -> & ->).
Qed.

Lemma request_then_peer_ok answer p ft :
  handshake_of p = inl ft -> peer_ok p -> peer_ok (request_then answer p).
Proof.
  unfold peer_ok, request_then.
  change (handshake_of (signal answer p)) with (handshake_of p).
  by intros ->.
Qed.

Lemma local_peer_ok i b inp p :
  (forall k r, connection b !! k = Some r -> request_ok b r) ->
  peers b !! i = Some p -> peer_ok p -> peer_ok (local i b inp p).
Proof.
  intros Hreq Hp Hok. destruct inp; cbn; try done.
  - case_decide; [by apply emit_peer_ok | done].
  - destruct (connection b !! k) as [r|] eqn:Hk; [|done].
    destruct (r_settled r); [done|].
    case_decide as Ho; [|done].
    destruct (Hreq k r Hk) as (_ & _ & q & Hq & Hh). rewrite Ho, Hp in Hq.
    simplify_eq. by eapply request_then_peer_ok.
  - repeat case_match; try done. by apply request_catch_peer_ok.
Qed.

(** Where the peers of the next state come from. *)
Lemma step_peers_inv b inp i p' :
  peers (step b inp) !! i = Some p' ->
  (exists p, peers b !! i = Some p /\ p' = local i b inp p)
  \/ (i = length (peers b)
      /\ ((exists from to, inp = CallInitiateConnection from to
                           /\ p' = initiator_peer from to)
          \/ (exists message, inp = InboundRequest message
                              /\ m_type message = "connect"
                              /\ p' = responder_peer message))).
Proof.
  intros Hp'. destruct (peers b !! i) as [p|] eqn:Hp.
  - left. exists p. split; [done|].
    rewrite (step_lookup b inp i p Hp) in Hp'. by simplify_eq.
  - right. apply lookup_ge_None in Hp.
    pose proof (lookup_lt_Some _ _ _ Hp') as Hlt.
    rewrite step_peers_length in Hlt.
    destruct (starts_handshake inp) eqn:Hs; [|lia].
    assert (i = length (peers b)) as -> by lia. split; [done|].
    destruct inp; try done; cbn in Hs.
    + right. exists message. apply bool_decide_eq_true_1 in Hs.
      split; [done|]. split; [done|].
      cbn in Hp'. unfold on_request in Hp'. rewrite Hs, get_connect in Hp'.
      cbn in Hp'. rewrite list_lookup_middle in Hp' by done. by simplify_eq.
    + left. exists from, to. split; [done|].
      cbn in Hp'. rewrite list_lookup_middle in Hp' by done. by simplify_eq.
Qed.

(** Where the requests of the next state come from. *)
Lemma step_connection_inv b inp k r' :
  connection (step b inp) !! k = Some r' ->
  (exists r, connection b !! k = Some r
             /\ r_owner r' = r_owner r /\ r_message r' = r_message r)
  \/ (exists i ev p m, inp = PeerEmit i ev /\ peers b !! i = Some p
                       /\ m ∈ (emit i ev p).2 /\ r' = new_request i m).
Proof.
  intros Hr'. destruct inp; cbn in Hr'.
  - left. exists r'. unfold onopen in Hr'. cbn in Hr'. by destruct (connecting b).
  - left. by exists r'.
  - left. exists r'. unfold onerror in Hr'. by destruct (connecting b).
  - left. exists r'. unfold on_request in Hr'.
    by destruct (get functions (m_type message)) as [[|key]|].
  - unfold peer_emit in Hr'. destruct (peers b !! peer) as [p|] eqn:Hp;
      [|left; by exists r'].
    cbn in Hr'. apply lookup_app_Some in Hr' as [Hr'|[_ Hr']].
    + left. by exists r'.
    + right. apply list_lookup_fmap_Some in Hr' as (m & -> & Hm).
      exists peer, ev, p, m. split; [done|]. split; [done|]. split; [|done].
      by eapply list_elem_of_lookup_2.
  - unfold request_settled in Hr'. destruct (connection b !! k0) as [r0|] eqn:Hk0;
      [|left; by exists r'].
    destruct (r_settled r0); [left; by exists r'|]. cbn in Hr'.
    apply list_lookup_insert_Some in Hr' as [(-> & <- & _)|[_ Hr']]; left.
    + by exists r0.
    + by exists r'.
  - unfold request_settled in Hr'. destruct (connection b !! k0) as [r0|] eqn:Hk0;
      [|left; by exists r'].
    destruct (r_settled r0); [left; by exists r'|]. cbn in Hr'.
    apply list_lookup_insert_Some in Hr' as [(-> & <- & _)|[_ Hr']]; left.
    + by exists r0.
    + by exists r'.
  - left. by exists r'.
  - left. by exists r'.
Qed.

Lemma step_keeps_handshake b inp i p :
  peers b !! i = Some p ->
  exists p', peers (step b inp) !! i = Some p' /\ handshake_of p' = handshake_of p.
Proof.
  intros Hp. exists (local i b inp p). split; [by apply step_lookup|].
  by destruct (local_frame i b inp p).
Qed.

Lemma new_Broker_well_formed u : well_formed (new_Broker u).
Proof.
  split; [|split].
  - intros k r Hr. done.
  - intros i p Hp. done.
  - intros c Hc. cbn in Hc. by apply elem_of_nil in Hc.
Qed.

Lemma initiator_peer_ok from to : peer_ok (initiator_peer from to).
Proof. split; [done|]. by exists true, true. Qed.

Lemma responder_peer_ok message : peer_ok (responder_peer message).
Proof. split; [done|]. split; [done|]. by exists true, true. Qed.

Lemma step_well_formed b inp : well_formed b -> well_formed (step b inp).
Proof.
  intros (Hreq & Hpeers & Hconn). split; [|split].
  - intros k r' Hr'.
    destruct (step_connection_inv b inp k r' Hr')
      as [(r & Hr & Ho & Hm)|(i & ev & p & m & -> & Hp & Hin & ->)].
    + destruct (Hreq k r Hr) as (Ht & Hs & p & Hp & Hh).
      unfold request_ok. rewrite Ho, Hm. split; [done|]. split; [done|].
      destruct (step_keeps_handshake b inp _ p Hp) as (p' & Hp' & Hh').
      exists p'. split; [done|]. congruence.
    + destruct (emit_requests i ev p m (Hpeers i p Hp) Hin)
        as (from & to & data & Hh & -> & Hoffer & ->).
      split; [done|]. split; [done|]. cbn.
      destruct (step_keeps_handshake b (PeerEmit i (OnSignal data)) i p Hp)
        as (p' & Hp' & Hh').
      exists p'. split; [done|]. congruence.
  - intros i p' Hp'.
    destruct (step_peers_inv b inp i p' Hp')
      as [(p & Hp & ->)|[-> [(from & to & -> & ->)|(message & -> & Ht & ->)]]].
    + apply local_peer_ok; [done|done|]. by eapply Hpeers.
    + apply initiator_peer_ok.
    + apply responder_peer_ok.
  - intros c Hc. rewrite step_emitted_events in Hc.
    apply elem_of_app in Hc as [Hc|Hc].
    + destruct (Hconn c Hc) as (Hr & p & message & Hp & Hh & Hid).
      split; [done|].
      destruct (step_keeps_handshake b inp _ p Hp) as (p' & Hp' & Hh').
      exists p', message. split; [done|]. split; [congruence|done].
    + destruct inp; cbn in Hc; try (by apply elem_of_nil in Hc);
        try (by apply list_elem_of_singleton in Hc).
      * destruct (connecting b); [by apply elem_of_nil in Hc|].
        by apply list_elem_of_singleton in Hc.
      * case_bool_decide as Ht; [|by apply elem_of_nil in Hc].
        apply list_elem_of_singleton in Hc. simplify_eq.
        split; [done|]. exists (responder_peer message), message.
        split; [|done]. cbn. unfold on_request. rewrite Ht, get_connect. cbn.
        by apply list_lookup_middle.
Qed.

Lemma run_well_formed tr b : well_formed b -> well_formed (run tr b).
Proof.
  revert b. induction tr as [|inp tr IH]; intros b Hwf; [done|].
  rewrite run_cons. by apply IH, step_well_formed.
Qed.

(** X10. Every request the broker ever issues on the channel is a connect
    request carrying a description of type "offer" whose [from] and [to] are
    those of the [initiateConnection] call that created the peer it belongs
    to, and that peer exists and is configured as initiator. *)
Theorem requests_are_offers_of_initiators
    (u : string) (tr : list Input) (k : nat) (r : Request) :
  let b := run tr (new_Broker u) in
  connection b !! k = Some r ->
  m_type (r_message r) = "connect"
  /\ sd_type (m_offer (r_message r)) = "offer"
  /\ exists p, peers b !! r_owner r = Some p
               /\ p_options p = initiator_options
               /\ handshake_of p = inl (m_from (r_message r), m_to (r_message r)).
Proof.
  intros b Hr.
  destruct (run_well_formed tr _ (new_Broker_well_formed u)) as (Hreq & Hpeers & _).
  destruct (Hreq k r Hr) as (Ht & Hs & p & Hp & Hh).
  split; [done|]. split; [done|]. exists p. split; [done|]. split; [|done].
  pose proof (Hpeers _ p Hp) as Hok. unfold peer_ok in Hok. rewrite Hh in Hok.
  by destruct Hok.
Qed.

Lemma requests_are_offers_of_initiators_witness :
  let b := run [CallInitiateConnection "peer1" "peer2"; PeerEmit 0 (OnSignal A1);
                PeerEmit 0 (OnSignal O1)] relay in
  connection b !! 0 = Some (new_request 0 (connect_message "peer1" "peer2" O1))
  /\ exists p, peers b !! 0 = Some p
               /\ p_options p = initiator_options
               /\ handshake_of p = inl ("peer1", "peer2").
Proof.
  intros b. split; [reflexivity|].
  destruct (requests_are_offers_of_initiators "ws://relay"
              [CallInitiateConnection "peer1" "peer2"; PeerEmit 0 (OnSignal A1);
               PeerEmit 0 (OnSignal O1)]
              0 (new_request 0 (connect_message "peer1" "peer2" O1)))
    as (_ & _ & H); [reflexivity|].
  exact H.
Defined.

(** X11. A responder peer is fed the inbound offer and nothing else, ever:
    no answer of any request reaches it, and it keeps the responder's
    options. *)
Theorem responder_is_fed_only_the_offer
    (u : string) (tr : list Input) (i : nat) (p : Peer) (message : Message) :
  let b := run tr (new_Broker u) in
  peers b !! i = Some p ->
  handshake_of p = inr message ->
  p_signalled p = [m_offer message] /\ p_options p = responder_options.
Proof.
  intros b Hp Hh.
  destruct (run_well_formed tr _ (new_Broker_well_formed u)) as (_ & Hpeers & _).
  pose proof (Hpeers _ p Hp) as Hok. unfold peer_ok in Hok. rewrite Hh in Hok.
  by destruct Hok as (? & ? & _).
Qed.

Lemma responder_is_fed_only_the_offer_witness :
  let message := connect_message "peer1" "peer2" O1 in
  let tr := [InboundRequest message; CallInitiateConnection "peer2" "peer3";
             PeerEmit 1 (OnSignal O1); PeerEmit 0 (OnSignal A1);
             RequestResolved 0 A1] in
  exists p, peers (run tr relay) !! 0 = Some p /\ p_signalled p = [O1].
Proof.
  intros message tr.
  eexists. split; [reflexivity|].
  eapply (responder_is_fed_only_the_offer "ws://relay" tr 0 _ message);
    reflexivity.
Defined.

(** X12. Every connection handed to the observers of 'connection' refers
    to an existing peer configured as responder, carries that peer's
    readiness, and is named after the sender of the request the peer was
    created for. *)
Theorem emitted_connections_are_responders
    (u : string) (tr : list Input) (c : Connection) :
  let b := run tr (new_Broker u) in
  EmConnection c ∈ emitted b ->
  c_ready c = c_peer c
  /\ exists p message, peers b !! c_peer c = Some p
                       /\ handshake_of p = inr message
                       /\ c_id c = m_from message
                       /\ initiator (p_options p) = false.
Proof.
  intros b Hc.
  destruct (run_well_formed tr _ (new_Broker_well_formed u)) as (_ & Hpeers & Hconn).
  destruct (Hconn c Hc) as (Hr & p & message & Hp & Hh & Hid).
  split; [done|]. exists p, message. repeat (split; [done|]).
  pose proof (Hpeers _ p Hp) as Hok. unfold peer_ok in Hok. rewrite Hh in Hok.
  destruct Hok as (-> & _). done.
Qed.

Lemma emitted_connections_are_responders_witness :
  let tr := [CallInitiateConnection "peer2" "peer3";
             InboundRequest (connect_message "peer1" "peer2" O1);
             PeerEmit 1 (OnError (Error "bad offer"))] in
  let c := {| c_id := "peer1"; c_peer := 1; c_ready := 1 |} in
  exists p message, peers (run tr relay) !! 1 = Some p
                    /\ handshake_of p = inr message
                    /\ "peer1" = m_from message
                    /\ initiator (p_options p) = false.
Proof.
  intros tr c.
  destruct (emitted_connections_are_responders "ws://relay" tr c) as [_ H].
  - vm_compute. constructor.
  - exact H.
Defined.

(** ** The readiness of an accepted connection *)

Lemma responder_peer_unready message : unready message (responder_peer message).
Proof. split; [done|]. by eexists _, _. Qed.

Lemma local_readies message i b inp p v :
  unready message p -> readies i inp = Some v ->
  ready_of (local i b inp p) = v /\ settled v = true.
Proof.
  destruct p as [o ls sg sc]. intros [Hl (cn & res & Hs)] Hr.
  cbn in Hl, Hs. subst ls sc.
  destruct inp as [| | | |j ev| | | |]; cbn in Hr; try done.
  destruct ev as [err|data|]; try done;
    destruct (decide (j = i)) as [->|]; simplify_eq; cbn;
    rewrite decide_True by done; by destruct cn.
Qed.

Lemma local_unready message i b inp p :
  unready message p -> readies i inp = None ->
  unready message (local i b inp p).
Proof.
  destruct p as [o ls sg sc]. intros [Hl (cn & res & Hs)] Hr.
  cbn in Hl, Hs. subst ls sc.
  match goal with
  | |- unready _ (local _ _ _ ?q) =>
      assert (unready message q) as Hsame by (split; [done | by eexists _, _])
  end.
  destruct inp as [| | | |j ev|k answer|k err| |]; cbn in Hr; try exact Hsame.
  - cbn. destruct (decide (j = i)) as [->|]; [|done].
    destruct ev as [err|data|]; try done.
    unfold emit, call_all, call; cbn. unfold acc_answer.
    destruct (bool_decide (sd_type data = "answer")); [|done].
    destruct cn; (split; [done | by eexists _, _]).
  - cbn. repeat case_match; first [done | split; [done | by eexists _, _]].
  - cbn. repeat case_match; first [done | split; [done | by eexists _, _]].
Qed.

Lemma run_first_ready message tr b i p :
  peers b !! i = Some p -> unready message p ->
  ready_of <$> peers (run tr b) !! i = Some (first_ready i tr).
Proof.
  revert b p. induction tr as [|inp tr IH]; intros b p Hp Hu.
  - cbn. rewrite Hp. cbn. destruct Hu as [_ (cn & res & Hs)].
    unfold ready_of. by rewrite Hs.
  - rewrite run_cons. cbn [first_ready].
    pose proof (step_lookup b inp i p Hp) as Hstep.
    destruct (readies i inp) as [v|] eqn:Hr.
    + destruct (local_readies message i b inp p v Hu Hr) as [Hv Hs].
      rewrite <- Hv. apply run_ready; [done|]. by rewrite Hv.
    + eapply IH; [done|]. by eapply local_unready.
Qed.

(** X13. The readiness of the connection emitted by [_acceptConnection] is
    decided by whichever the responder peer reports first: connected
    resolves it with the peer, an error rejects it with that error.  Signals
    and the settlement of the returned promise play no part. *)
Theorem responder_ready_first_event_wins (b : Broker) (message : Message) (tr : list Input) :
  let r := _acceptConnection message b in
  connection_ready (accepted_connection message b) (run tr r.2)
  = Some (first_ready r.1 tr).
Proof.
  cbn. unfold connection_ready. cbn.
  eapply (run_first_ready message); [|apply responder_peer_unready].
  cbn. by apply list_lookup_middle.
Qed.

(** An answer followed by an error: the request has its answer, the
    connection fails. *)
Example responder_answers_then_fails :
  let message := connect_message "peer1" "peer2" O1 in
  let b := run [InboundRequest message; PeerEmit 0 (OnSignal A1);
                PeerEmit 0 (OnError (Error "ice failed")); PeerEmit 0 OnConnect] relay in
  accept_result 0 b = Some (Fulfilled A1)
  /\ connection_ready (accepted_connection message relay) b
     = Some (Rejected (Error "ice failed")).
Proof. split; reflexivity. Qed.

(** ** Handshakes do not interfere *)

Lemma local_foreign i b inp p : concerns i b inp = false -> local i b inp p = p.
Proof.
  destruct inp; cbn; try done.
  - intros Hc. apply bool_decide_eq_false_1 in Hc. by rewrite decide_False.
  - destruct (connection b !! k) as [r|]; [|done].
    destruct (r_settled r); [done|]. cbn. intros Hc.
    apply bool_decide_eq_false_1 in Hc. by rewrite decide_False.
  - destruct (connection b !! k) as [r|]; [|done].
    destruct (r_settled r); [done|]. cbn. intros Hc.
    apply bool_decide_eq_false_1 in Hc. by rewrite decide_False.
Qed.

(** X14. A peer changes only through its own events and the settlement of
    its own pending requests: a run in which no input concerns it (events of
    other peers, other handshakes starting, settlements of other requests,
    relay events, [close]) leaves the peer, its closure and hence its
    connection's readiness exactly as they were. *)
Theorem handshakes_do_not_interfere
    (b : Broker) (tr : list Input) (i : nat) (p : Peer) :
  peers b !! i = Some p ->
  foreign i tr b = true ->
  peers (run tr b) !! i = Some p.
Proof.
  revert b. induction tr as [|inp tr IH]; intros b Hp Hf; [done|].
  rewrite run_cons. cbn in Hf. apply andb_prop in Hf as [Hc Hf].
  apply negb_true_iff in Hc.
  apply IH; [|done]. rewrite (step_lookup b inp i p Hp).
  by rewrite local_foreign.
Qed.

Lemma handshakes_do_not_interfere_witness :
  let b := run [CallInitiateConnection "peer1" "peer2";
                CallInitiateConnection "peer1" "peer2";
                PeerEmit 1 (OnSignal O1)] relay in
  peers (run [PeerEmit 1 (OnError (Error "ice failed")); RequestRejected 0 (Error "gone");
              SocketError (Error "relay"); CallClose] b) !! 0
  = Some (initiator_peer "peer1" "peer2").
Proof.
  intros b.
  apply (handshakes_do_not_interfere b
           [PeerEmit 1 (OnError (Error "ice failed")); RequestRejected 0 (Error "gone");
            SocketError (Error "relay"); CallClose]
           0 (initiator_peer "peer1" "peer2")); reflexivity.
Defined.

(** ** Signals of other types *)

Lemma peer_eq p q :
  p_options p = p_options q -> p_listeners p = p_listeners q ->
  p_signalled p = p_signalled q -> p_scope p = p_scope q -> p = q.
Proof. destruct p, q; cbn; by intros -> -> -> ->. Qed.

Lemma call_unexpected_signal fn i data q :
  unexpected data q -> p_scope (call fn i (OnSignal data) q).1 = p_scope q.
Proof.
  destruct q as [o ls sg [s|s]]; unfold unexpected, call; cbn; intros Hne;
    destruct fn; cbn; try done.
  - by destruct (bool_decide (sd_type data = "offer")).
  - unfold acc_answer. by rewrite bool_decide_eq_false_2.
Qed.

Lemma emit_unexpected_signal i data p :
  peer_ok p -> unexpected data p -> emit i (OnSignal data) p = (p, []).
Proof.
  intros Hok Hne.
  assert (p_scope (emit i (OnSignal data) p).1 = p_scope p) as Hscope.
  { unfold emit.
    apply (call_all_ind (fun q => p_scope q = p_scope p)); [done|].
    intros fn q Hq. rewrite <- Hq. apply call_unexpected_signal.
    unfold unexpected. by rewrite Hq. }
  destruct (emit_frame i (OnSignal data) p) as (_ & Ho & Hs).
  pose proof (emit_listeners i (OnSignal data) p) as Hl.
  rewrite (surjective_pairing (emit i (OnSignal data) p)).
  unfold peer_ok, unexpected, handshake_of in *.
  destruct (p_scope p) as [s|s] eqn:Hp.
  - destruct Hok as [_ (e & c & Hls)]. f_equal.
    + apply peer_eq; [done| |done|congruence].
      rewrite Hl, Hls, keep_after_init_listeners. by destruct e, c.
    + rewrite (emit_signal_requests (i_from s) (i_to s)).
      * by rewrite bool_decide_eq_false_2.
      * apply handshake_initiator_of; [|by exists e, c].
        unfold handshake_of. by rewrite Hp.
  - destruct Hok as (_ & _ & (c & e & Hls)). f_equal.
    + apply peer_eq; [done| |done|congruence].
      rewrite Hl, Hls, keep_after_acc_listeners. by destruct e, c.
    + apply (emit_responder_no_requests _ _ _ (a_message s)).
      unfold handshake_of. by rewrite Hp.
Qed.

(** X15. A signal of another type than the one the handshake waits for (an
    initiator peer signalling anything but an offer, a responder peer
    anything but an answer) is ignored altogether: the state of the broker
    and of every peer is unchanged. *)
Theorem unexpected_signals_are_ignored
    (u : string) (tr : list Input) (i : nat) (p : Peer) (data : SessionDescription) :
  let b := run tr (new_Broker u) in
  peers b !! i = Some p ->
  unexpected data p ->
  step b (PeerEmit i (OnSignal data)) = b.
Proof.
  intros b Hp Hne.
  destruct (run_well_formed tr _ (new_Broker_well_formed u)) as (_ & Hpeers & _).
  fold b in Hpeers. clearbody b.
  cbn. unfold peer_emit. rewrite Hp.
  rewrite emit_unexpected_signal by eauto. cbn.
  rewrite app_nil_r, list_insert_id by done.
  by destruct b.
Qed.

Lemma unexpected_signals_are_ignored_witness :
  let candidate := {| sd_type := "candidate"; sd_sdp := "c" |} in
  let b := run [CallInitiateConnection "peer1" "peer2";
                InboundRequest (connect_message "peer3" "peer1" O1)] relay in
  step b (PeerEmit 0 (OnSignal candidate)) = b
  /\ step b (PeerEmit 0 (OnSignal A1)) = b
  /\ step b (PeerEmit 1 (OnSignal O1)) = b.
Proof.
  intros candidate b. split; [|split].
  - eapply (unexpected_signals_are_ignored "ws://relay"
              [CallInitiateConnection "peer1" "peer2";
               InboundRequest (connect_message "peer3" "peer1" O1)] 0);
      [reflexivity | by vm_compute].
  - eapply (unexpected_signals_are_ignored "ws://relay"
              [CallInitiateConnection "peer1" "peer2";
               InboundRequest (connect_message "peer3" "peer1" O1)] 0);
      [reflexivity | by vm_compute].
  - eapply (unexpected_signals_are_ignored "ws://relay"
              [CallInitiateConnection "peer1" "peer2";
               InboundRequest (connect_message "peer3" "peer1" O1)] 1);
      [reflexivity | by vm_compute].
Defined.

(** ** Listeners *)

Lemma local_listeners i b inp p :
  p_listeners (local i b inp p) = p_listeners p
  \/ exists name, p_listeners (local i b inp p) = keep_after name (p_listeners p).
Proof.
  destruct inp; cbn; try (by left).
  - case_decide; [|by left]. right. exists (event_name ev). apply emit_listeners.
  - left. by repeat case_match.
  - left. repeat case_match; try done.
    by destruct (request_catch_frame err p) as (_ & _ & _ & ->).
Qed.

Lemma run_listeners (P : list Listener -> Prop) tr b i p :
  (forall name ls, P ls -> P (keep_after name ls)) ->
  peers b !! i = Some p -> P (p_listeners p) ->
  exists p', peers (run tr b) !! i = Some p' /\ P (p_listeners p').
Proof.
  intros Hkeep. revert b p. induction tr as [|inp tr IH]; intros b p Hp HP;
    [by exists p|].
  rewrite run_cons. eapply IH; [by apply step_lookup|].
  destruct (local_listeners i b inp p) as [->|[name ->]]; [done|]. by apply Hkeep.
Qed.

(** X16. The broker listens to the errors of an initiator peer once: after
    the peer's first error no error listener of the broker is left on it.
    On a responder peer an error listener stays attached for good. *)
Theorem error_listeners_once_or_for_good
    (b : Broker) (from to : string) (message : Message)
    (tr tr' : list Input) (err : Err) :
  (let r := initiateConnection from to b in
   exists p, peers (run (tr ++ PeerEmit (c_peer r.1) (OnError err) :: tr') r.2) !! c_peer r.1
             = Some p
             /\ listening EvError (p_listeners p) = [])
  /\ (let r := _acceptConnection message b in
      exists p, peers (run tr r.2) !! r.1 = Some p
                /\ last (listening EvError (p_listeners p)) = Some AccError).
Proof.
  split.
  - intros r. set (i := c_peer r.1).
    destruct (run_initiator_of from to tr r.2 i (initiator_peer from to))
      as (p1 & Hp1 & [(e & c & Hl1) _]).
    { cbn. by apply list_lookup_middle. }
    { apply initiator_peer_initiator_of. }
    rewrite run_app, run_cons.
    destruct (run_listeners (fun ls => exists c, ls = init_listeners false c) tr'
                (step (run tr r.2) (PeerEmit i (OnError err))) i
                (local i (run tr r.2) (PeerEmit i (OnError err)) p1))
      as (p & Hp & (c' & Hl)).
    + intros name ls [c0 ->]. rewrite keep_after_init_listeners. by eexists.
    + by apply step_lookup.
    + cbn. rewrite decide_True by done.
      rewrite emit_listeners, Hl1, keep_after_init_listeners. cbn.
      rewrite andb_false_r. by eexists.
    + exists p. split; [done|]. rewrite Hl. by destruct c'.
  - intros r.
    destruct (run_listeners (fun ls => exists c e, ls = acc_listeners c e) tr
                r.2 r.1 (responder_peer message))
      as (p & Hp & (c & e & Hl)).
    + intros name ls (c0 & e0 & ->). rewrite keep_after_acc_listeners. by eexists _, _.
    + cbn. by apply list_lookup_middle.
    + by exists true, true.
    + exists p. split; [done|]. rewrite Hl. by destruct c, e.
Qed.

(** ** Both sides together *)

Lemma initiator_emits_offer i from to offer :
  sd_type offer = "offer" ->
  emit i (OnSignal offer) (initiator_peer from to)
  = (initiator_peer from to, [connect_message from to offer]).
Proof.
  intros Ho. unfold emit, call_all, call; cbn.
  by rewrite (bool_decide_eq_true_2 _ Ho).
Qed.

Lemma responder_emits_answer j message answer :
  sd_type answer = "answer" ->
  result_of (emit j (OnSignal answer) (responder_peer message)).1 = Some (Fulfilled answer)
  /\ ready_of (emit j OnConnect (emit j (OnSignal answer) (responder_peer message)).1).1
     = Fulfilled (ThePeer j).
Proof.
  intros Ha. unfold emit, call_all, call; cbn. unfold acc_answer.
  by rewrite (bool_decide_eq_true_2 _ Ha).
Qed.

(** X17. The two sides fit together.  The request an initiating broker
    issues for an offer is, on the broker that receives it, dispatched to
    [_acceptConnection]: a 'connection' named after the initiator is emitted
    and the responder peer is fed that very offer.  The answer the responder
    peer signals resolves the promise returned to the channel; delivered to
    the initiating broker as the response, it is fed to the initiator peer.
    When both peers then report connected, both connections are ready. *)
Theorem handshake_round_trip
    (ba bb : Broker) (from to : string) (offer answer : SessionDescription) :
  sd_type offer = "offer" ->
  sd_type answer = "answer" ->
  let ra := initiateConnection from to ba in
  let i := c_peer ra.1 in
  let k := length (connection ba) in
  let j := length (peers bb) in
  let a1 := step ra.2 (PeerEmit i (OnSignal offer)) in
  let m := connect_message from to offer in
  let rb := on_request m bb in
  let cb := {| c_id := from; c_peer := j; c_ready := j |} in
  let b2 := step rb.2 (PeerEmit j (OnSignal answer)) in
  let a2 := step a1 (RequestResolved k answer) in
  connection a1 !! k = Some (new_request i m)
  /\ rb.1 = Return (VPromise j)
  /\ emitted rb.2 = emitted bb ++ [EmConnection cb]
  /\ p_signalled <$> peers rb.2 !! j = Some [offer]
  /\ accept_result j b2 = Some (Fulfilled answer)
  /\ p_signalled <$> peers a2 !! i = Some [answer]
  /\ connection_ready ra.1 (step a2 (PeerEmit i OnConnect)) = Some (Fulfilled Undefined)
  /\ connection_ready cb (step b2 (PeerEmit j OnConnect)) = Some (Fulfilled (ThePeer j)).
Proof.
  intros Ho Ha ra i k j a1 m rb cb b2 a2.
  (* the initiating side *)
  assert (peers ra.2 !! i = Some (initiator_peer from to)) as Hp0
    by (cbn; by apply list_lookup_middle).
  assert (connection a1 !! k = Some (new_request i m)) as Hk.
  { unfold a1. cbn [step]. unfold peer_emit. rewrite Hp0. cbv beta iota zeta.
    rewrite initiator_emits_offer by done. cbn. by apply list_lookup_middle. }
  assert (peers a1 !! i = Some (initiator_peer from to)) as Hp1.
  { unfold a1. rewrite (step_lookup _ _ _ _ Hp0). cbn [local].
    rewrite decide_True by done. by rewrite initiator_emits_offer. }
  assert (peers a2 !! i = Some (signal answer (initiator_peer from to))) as Hp2.
  { unfold a2. rewrite (step_lookup _ _ _ _ Hp1). cbn [local].
    rewrite Hk. cbn. by rewrite decide_True. }
  (* the accepting side *)
  assert (rb = (Return (VPromise j), (_acceptConnection m bb).2)) as Hrb.
  { unfold rb, on_request. cbn [m_type m connect_message]. by rewrite get_connect. }
  assert (peers rb.2 !! j = Some (responder_peer m)) as Hq0.
  { rewrite Hrb. cbn. by apply list_lookup_middle. }
  assert (peers b2 !! j = Some (emit j (OnSignal answer) (responder_peer m)).1) as Hq1.
  { unfold b2. rewrite (step_lookup _ _ _ _ Hq0). cbn [local]. by rewrite decide_True. }
  destruct (responder_emits_answer j m answer Ha) as [Hres Hrdy].
  split; [done|]. split; [by rewrite Hrb|]. split; [by rewrite Hrb|].
  split; [by rewrite Hq0|].
  split; [unfold accept_result; rewrite Hq1; exact Hres|].
  split; [by rewrite Hp2|].
  split.
  - unfold connection_ready. cbn [c_ready ra initiateConnection fst]. fold i.
    rewrite (step_lookup _ _ _ _ Hp2). cbn. by rewrite decide_True.
  - unfold connection_ready. cbn [c_ready cb].
    rewrite (step_lookup _ _ _ _ Hq1). cbn [local fmap option_fmap option_map].
    rewrite decide_True by done. by rewrite Hrdy.
Qed.

Lemma handshake_round_trip_witness :
  let a2 := run [CallInitiateConnection "peer1" "peer2"; PeerEmit 0 (OnSignal O1);
                 RequestResolved 0 A1] relay in
  let b2 := run [InboundRequest (connect_message "peer1" "peer2" O1);
                 PeerEmit 0 (OnSignal A1)] relay in
  p_signalled <$> peers a2 !! 0 = Some [A1]
  /\ accept_result 0 b2 = Some (Fulfilled A1).
Proof.
  intros a2 b2.
  destruct (handshake_round_trip relay relay "peer1" "peer2" O1 A1)
    as (_ & _ & _ & _ & H1 & H2 & _); [reflexivity | reflexivity |].
  split; [exact H2 | exact H1].
Defined.

(** ** The guard flags *)

Lemma emit_flags_agree i ev p :
  peer_ok p -> flags_agree p -> flags_agree (emit i ev p).1.
Proof.
  destruct p as [o ls sg [[f t cn rd]|[m cn dn rd res]]];
    unfold peer_ok, handshake_of, flags_agree; cbn.
  - intros [_ (e & c & ->)] ->.
    destruct ev as [err|data|]; destruct e, c; unfold emit, call_all, call; cbn;
      unfold_handlers; cbn;
      try destruct (bool_decide (sd_type data = "offer")); by destruct rd.
  - intros (_ & _ & (c & e & ->)) [-> Hd].
    destruct ev as [err|data|]; destruct c, e; unfold emit, call_all, call; cbn;
      unfold_handlers; cbn;
      try destruct (bool_decide (sd_type data = "answer"));
      destruct dn, rd, res; cbn in *; naive_solver.
Qed.

Lemma local_flags_agree i b inp p :
  peer_ok p -> flags_agree p -> flags_agree (local i b inp p).
Proof.
  intros Hok Hf. destruct inp; cbn; try done.
  - case_decide; [|done]. by apply emit_flags_agree.
  - repeat case_match; done.
  - repeat case_match; try done.
    destruct p as [o ls sg [[f t cn rd]|s]]; unfold flags_agree, request_catch in *;
      cbn in *; [|done].
    subst cn. unfold init_fail; cbn. by destruct rd.
Qed.

(** X18. In every state the broker reaches (between events), the guard
    flags of every handshake agree with its promises: an initiator's
    [connecting] is true exactly while the connection's readiness is pending,
    a responder's [connecting] is true exactly while the promise returned to
    the channel is pending, and a responder's [done] is set only when its
    readiness is settled.  On the responder side this rests on the order of
    the error listeners: [reject] is registered unguarded, and the guarded
    listener that clears [connecting] runs right after it. *)
Theorem handshake_flags_agree_with_promises
    (u : string) (tr : list Input) (i : nat) (p : Peer) :
  peers (run tr (new_Broker u)) !! i = Some p ->
  flags_agree p.
Proof.
  revert i p. induction tr as [|inp tr IH] using rev_ind; intros i p Hp; [done|].
  rewrite run_app in Hp. cbn [run fold_left] in Hp.
  destruct (step_peers_inv _ _ _ _ Hp)
    as [(p0 & Hp0 & ->)|[_ [(from & to & _ & ->)|(message & _ & _ & ->)]]].
  - destruct (run_well_formed tr _ (new_Broker_well_formed u)) as (_ & Hpeers & _).
    apply local_flags_agree; [by eapply Hpeers | by eapply IH].
  - done.
  - done.
Qed.

Lemma handshake_flags_agree_with_promises_witness :
  let tr := [InboundRequest (connect_message "peer1" "peer2" O1);
             PeerEmit 0 (OnError (Error "ice failed")); PeerEmit 0 OnConnect] in
  exists p, peers (run tr relay) !! 0 = Some p /\ flags_agree p.
Proof.
  intros tr. eexists. split; [reflexivity|].
  apply (handshake_flags_agree_with_promises "ws://relay" tr 0). reflexivity.
Defined.
